(** * bfc: a BF compiler emitting IA-32 assembly

    A shallow embedding of [src/bfc.c] and the properties of its translator.

    Data model.  The program emits IA-32 code and hands it to the native
    assembler and linker, and it prints its [size_t] counters with [%u]; the
    embedding therefore takes [size_t] and [unsigned int] as on that target:
    32 bits wide, [sizeof(size_t) = 4], and [double] is IEEE-754 binary64.
    Unsigned arithmetic wraps modulo [2^32] and is written out with [wrap].
    The width of [long], which decides what the option [-s] accepts, is not
    fixed: it is the parameter [long_bits] of [strtol], [setup_info] and
    [main], 32 on IA-32 and 64 on x86-64.

    Effects.  The C library is represented by an environment [env]: which
    files can be opened and what they contain, which allocation requests are
    granted, and the indeterminate content of fresh storage.  [exit] through
    [error] and undefined behaviour (an access outside the loop stack, a
    floating conversion out of range) are the two abnormal outcomes. *)

From Stdlib Require Import ZArith List String Ascii Lia Bool.
From Stdlib Require Import DecimalString DecimalFacts DecimalPos DecimalN.
From Stdlib Require Import SpecFloat Sorted.
From stdpp Require Import list strings.
Import ListNotations.

Open Scope char_scope.
Open Scope string_scope.
Open Scope list_scope.
Open Scope Z_scope.

(** ** Machine integers *)

Definition SIZE_MAX : Z := 2 ^ 32 - 1.
Definition PTRDIFF_MAX : Z := 2 ^ 31 - 1.
Definition UINT_MAX : Z := 2 ^ 32 - 1.
Definition sizeof_size_t : Z := 4.

(** The range of a [long] of [long_bits] bits. *)
Definition LONG_MAX (long_bits : Z) : Z := 2 ^ (long_bits - 1) - 1.
Definition LONG_MIN (long_bits : Z) : Z := - 2 ^ (long_bits - 1).

(** Reduction modulo [2^32]: unsigned arithmetic, and the conversion of a
    [long] to [unsigned int]. *)
Definition wrap (n : Z) : Z := n mod 2 ^ 32.

(** ** Text *)

Definition TAB : string := String "009" "".
Definition NL : string := String "010" "".

(** [%u] and [%zu]: an unsigned number in decimal. *)
Definition fmt_u (n : Z) : string :=
  NilZero.string_of_uint (N.to_uint (Z.to_N n)).

(** ** Outcomes

    [Ok] is a normal return.  [Fatal] is a call of [error]: the diagnostic
    goes to standard error and the process exits with [EXIT_FAILURE].
    [Undefined] is undefined behaviour of the C program. *)

Inductive outcome (A : Type) : Type :=
| Ok (a : A)
| Fatal (diag : string)
| Undefined.

Arguments Ok {A} a.
Arguments Fatal {A} diag.
Arguments Undefined {A}.

#[global] Instance outcome_ret : MRet outcome := fun A a => Ok a.

#[global] Instance outcome_bind : MBind outcome := fun A B k m =>
  match m with
  | Ok a => k a
  | Fatal d => Fatal d
  | Undefined => Undefined
  end.

(** [void error(const char *err, ...)] *)
Definition error {A : Type} (msg : string) : outcome A :=
  Fatal ("bfc: " +:+ msg +:+ NL).

(** ** The [double] arithmetic of the stack growth *)

Module Double.

Definition prec : Z := 53.
Definition emax : Z := 1024.

(** Conversion of an integer to [double], rounding to nearest even. *)
Definition of_Z (n : Z) : spec_float := binary_normalize prec emax n 0 false.

Definition mul : spec_float -> spec_float -> spec_float := SFmul prec emax.

(** Conversion of a [double] to an integer: the fractional part is
    discarded; infinities and NaN have no integer value. *)
Definition to_Z (f : spec_float) : option Z :=
  match f with
  | S754_zero _ => Some 0
  | S754_finite s m e =>
      Some (cond_Zopp s (if 0 <=? e then Zpos m * 2 ^ e
                         else Z.quot (Zpos m) (2 ^ (- e))))
  | S754_infinity _ | S754_nan => None
  end.

End Double.

Definition STACK_SIZE : Z := 1024.

(** The constant [1.1]: the binary64 number nearest to 11/10,
    [4953959590107546 * 2^-52]. *)
Definition STACK_GROWTH_FACTOR : spec_float :=
  S754_finite false 4953959590107546 (-52).

(** [stack_size *= STACK_GROWTH_FACTOR]: the product is formed in [double]
    and converted back to [size_t]; the conversion is undefined when the
    value does not fit. *)
Definition grow (stack_size : Z) : option Z :=
  match Double.to_Z (Double.mul (Double.of_Z stack_size) STACK_GROWTH_FACTOR) with
  | Some n => if (0 <=? n) && (n <=? SIZE_MAX) then Some n else None
  | None => None
  end.

(** ** The environment: files and the allocator *)

Record env : Type := {
  fs_read : string -> option (list ascii);
    (* fopen(name, "r"), and the bytes that fgetc then delivers *)
  fs_write : string -> bool;
    (* fopen(name, "w") succeeds *)
  heap_grants : Z -> bool;
    (* malloc or realloc of that many bytes succeeds *)
  heap_junk : nat -> Z
    (* indeterminate content of fresh storage, by element index *)
}.

(** Fresh, uninitialised elements [from .. from + n - 1]. *)
Definition fresh (e : env) (from n : nat) : list Z :=
  map (heap_junk e) (seq from n).

(** [malloc(bytes)] for an array of [size_t]. *)
Definition malloc (e : env) (bytes : Z) : option (list Z) :=
  if heap_grants e bytes
  then Some (fresh e 0 (Z.to_nat (bytes / sizeof_size_t)))
  else None.

(** [realloc(blk, bytes)]: the content is kept up to the smaller of the
    old and the new size. *)
Definition realloc (e : env) (blk : list Z) (bytes : Z) : option (list Z) :=
  if heap_grants e bytes
  then let n := Z.to_nat (bytes / sizeof_size_t) in
       Some (take n blk ++ fresh e (length blk) (n - length blk))
  else None.

(** ** Compilation information *)

Inductive stage : Type := COMPILE | ASSEMBLE | LINK.

Record info_t : Type := {
  in_filename : option string;
  out_filename : option string;
  target : stage;
  cells_size : Z
}.

(** ** The translator *)

(** The local variables of [compile] that the loop changes; [as_] is the
    text written to the assembly file, one string per [fprintf]. *)
Record state : Type := {
  as_ : list string;
  stack : list Z;
  top : Z;
  stack_size : Z;
  loop : Z
}.

Definition fprintf (st : state) (lines : list string) : state :=
  {| as_ := as_ st ++ lines; stack := stack st; top := top st;
     stack_size := stack_size st; loop := loop st |}.

Definition io_lines (eax ebx : string) : list string :=
  [ TAB +:+ "mov eax, " +:+ eax +:+ NL;
    TAB +:+ "mov ebx, " +:+ ebx +:+ NL;
    TAB +:+ "mov ecx, edi" +:+ NL;
    TAB +:+ "mov edx, 1" +:+ NL;
    TAB +:+ "int 0x80" +:+ NL ].

Definition open_lines (l : Z) : list string :=
  [ TAB +:+ "cmp DWORD PTR [edi], 0" +:+ NL;
    TAB +:+ "jz .LE" +:+ fmt_u l +:+ NL;
    ".LB" +:+ fmt_u l +:+ ":" +:+ NL ].

Definition close_lines (l : Z) : list string :=
  [ TAB +:+ "cmp DWORD PTR [edi], 0" +:+ NL;
    TAB +:+ "jnz .LB" +:+ fmt_u l +:+ NL;
    ".LE" +:+ fmt_u l +:+ ":" +:+ NL ].

(** The resize of the loop stack, taken when [top == stack_size]. *)
Definition resize (e : env) (st : state) : outcome (list Z * Z) :=
  match grow (stack_size st) with
  | None => Undefined
  | Some size' =>
      match realloc e (stack st) (wrap (sizeof_size_t * size')) with
      | None =>
          error ("Out of memory while increasing loop stack to size: "
                 +:+ fmt_u size' +:+ NL)
      | Some blk => Ok (blk, size')
      end
  end.

(** One iteration of the [while] loop: the [switch] on the character. *)
Definition step (e : env) (c : ascii) (st : state) : outcome state :=
  match c with
  | ">"%char => Ok (fprintf st [TAB +:+ "add edi, 4" +:+ NL])
  | "<"%char => Ok (fprintf st [TAB +:+ "sub edi, 4" +:+ NL])
  | "+"%char => Ok (fprintf st [TAB +:+ "inc DWORD PTR [edi]" +:+ NL])
  | "-"%char => Ok (fprintf st [TAB +:+ "dec DWORD PTR [edi]" +:+ NL])
  | ","%char => Ok (fprintf st (io_lines "3" "0"))
  | "."%char => Ok (fprintf st (io_lines "4" "1"))
  | "["%char =>
      r ← (if top st =? stack_size st then resize e st
           else Ok (stack st, stack_size st));
      let loop' := wrap (loop st + 1) in
      if top st <? Z.of_nat (length (fst r)) then
        Ok {| as_ := as_ st ++ open_lines loop';
              stack := <[Z.to_nat (top st) := loop']> (fst r);
              top := wrap (top st + 1);
              stack_size := snd r;
              loop := loop' |}
      else Undefined
  | "]"%char =>
      let top' := wrap (top st - 1) in
      match stack st !! Z.to_nat top' with
      | Some l =>
          Ok {| as_ := as_ st ++ close_lines l;
                stack := stack st;
                top := top';
                stack_size := stack_size st;
                loop := loop st |}
      | None => Undefined
      end
  | _ => Ok st
  end.

(** The [while ((c = fgetc(src)) != EOF)] loop. *)
Fixpoint scan (e : env) (src : list ascii) (st : state) : outcome state :=
  match src with
  | [] => Ok st
  | c :: rest => st' ← step e c st; scan e rest st'
  end.

Definition prologue (cells : Z) : list string :=
  [ ".intel_syntax noprefix" +:+ NL;
    ".section .bss" +:+ NL;
    TAB +:+ ".lcomm cells, " +:+ fmt_u cells +:+ NL;
    ".section .text" +:+ NL;
    ".globl _start" +:+ NL;
    "_start:" +:+ NL;
    TAB +:+ "mov edi, OFFSET cells" +:+ NL ].

Definition epilogue : list string :=
  [ "mov eax, 1" +:+ NL;
    "mov ebx, 0" +:+ NL;
    "int 0x80" +:+ NL ].

(** The state in which the loop is entered. *)
Definition start (cells : Z) (blk : list Z) : state :=
  {| as_ := prologue cells; stack := blk; top := 0;
     stack_size := STACK_SIZE; loop := 0 |}.

(** [void compile(const info_t *info, const char *asm_filename,
                  const char *src_filename)]: the result is the text
    written to the assembly file. *)
Definition compile (e : env) (info : info_t) (asm_filename src_filename : string)
  : outcome (list string) :=
  match fs_read e src_filename with
  | None => error ("Could not read file " +:+ src_filename)
  | Some src =>
      if negb (fs_write e asm_filename)
      then error ("Could not write file " +:+ asm_filename)
      else
        match malloc e (wrap (STACK_SIZE * sizeof_size_t)) with
        | None =>
            error ("Out of memory while creating loop stack of size "
                   +:+ fmt_u STACK_SIZE)
        | Some blk =>
            st ← scan e src (start (cells_size info) blk);
            Ok (as_ st ++ epilogue)
        end
  end.

(** ** Command line *)

Definition isspace (c : ascii) : bool :=
  match c with
  | " "%char | "009"%char | "010"%char | "011"%char | "012"%char | "013"%char => true
  | _ => false
  end.

Fixpoint skip_space (s : string) : string :=
  match s with
  | String c r => if isspace c then skip_space r else s
  | EmptyString => s
  end.

(** The value of a digit or letter, as [strtol] reads it in bases up to 36. *)
Definition digit_val (c : ascii) : option Z :=
  let n := Z.of_nat (nat_of_ascii c) in
  if (48 <=? n) && (n <=? 57) then Some (n - 48)
  else if (97 <=? n) && (n <=? 122) then Some (n - 97 + 10)
  else if (65 <=? n) && (n <=? 90) then Some (n - 65 + 10)
  else None.

(** The longest run of digits of the base: its value, the rest of the
    string, and whether any digit was read. *)
Fixpoint digits (base : Z) (s : string) (acc : Z) (seen : bool) : Z * string * bool :=
  match s with
  | String c r =>
      match digit_val c with
      | Some d => if d <? base then digits base r (acc * base + d) true
                  else (acc, s, seen)
      | None => (acc, s, seen)
      end
  | EmptyString => (acc, s, seen)
  end.

Definition ERANGE : Z := 34.

(** The optional sign of the subject sequence: whether it is negative, and
    what follows it. *)
Definition strtol_sign (s : string) : bool * string :=
  match s with
  | String "-"%char r => (true, r)
  | String "+"%char r => (false, r)
  | _ => (false, s)
  end.

(** Base 0: a leading [0x] or [0X] before a hexadecimal digit selects base
    16 and is skipped, any other leading [0] selects base 8, everything
    else base 10. *)
Definition strtol_base (s : string) : Z * string :=
  match s with
  | String "0"%char (String x (String h r)) =>
      if (Ascii.eqb x "x" || Ascii.eqb x "X")
         && match digit_val h with Some d => d <? 16 | None => false end
      then (16, String h r) else (8, s)
  | String "0"%char _ => (8, s)
  | _ => (10, s)
  end.

(** A value outside the range of [long] is replaced by the nearest bound,
    and [errno] becomes [ERANGE]. *)
Definition strtol_clamp (long_bits : Z) (v : Z) (rest : string) : Z * string * Z :=
  if LONG_MAX long_bits <? v then (LONG_MAX long_bits, rest, ERANGE)
  else if v <? LONG_MIN long_bits then (LONG_MIN long_bits, rest, ERANGE)
  else (v, rest, 0).

(** [strtol(nptr, &tail, 0)] of the C library, for a [long] of [long_bits]
    bits: the value, the unread tail and the value left in [errno] (which
    the caller has cleared).  Without any digit the value is 0 and the tail
    is the whole of [nptr]. *)
Definition strtol (long_bits : Z) (nptr : string) : Z * string * Z :=
  let '(neg, s1) := strtol_sign (skip_space nptr) in
  let '(base, s2) := strtol_base s1 in
  let '(v, rest, seen) := digits base s2 0 false in
  if negb seen then (0, nptr, 0)
  else strtol_clamp long_bits (if neg : bool then - v else v) rest.

Definition stage_rank (s : stage) : Z :=
  match s with COMPILE => 0 | ASSEMBLE => 1 | LINK => 2 end.

Definition set_target (info : info_t) (t : stage) : info_t :=
  {| in_filename := in_filename info; out_filename := out_filename info;
     target := t; cells_size := cells_size info |}.

Definition set_out_filename (info : info_t) (f : string) : info_t :=
  {| in_filename := in_filename info; out_filename := Some f;
     target := target info; cells_size := cells_size info |}.

Definition set_cells_size (info : info_t) (n : Z) : info_t :=
  {| in_filename := in_filename info; out_filename := out_filename info;
     target := target info; cells_size := n |}.

Definition set_in_filename (info : info_t) (f : string) : info_t :=
  {| in_filename := Some f; out_filename := out_filename info;
     target := target info; cells_size := cells_size info |}.

(** The [while ((c = getopt(argc, argv, "Scho:s:")) != -1)] loop of
    [setup_info].  [opts] is what the successive calls of [getopt] deliver:
    the option character and [optarg].  The result is whether the loop ran
    to its end, and [*info] as the loop leaves it. *)
Fixpoint setup_options (long_bits : Z) (info : info_t) (opts : list (ascii * string))
  : bool * info_t :=
  match opts with
  | [] => (true, info)
  | (c, optarg) :: rest =>
      match c with
      | "S"%char =>
          setup_options long_bits
            (if stage_rank COMPILE <? stage_rank (target info)
             then set_target info COMPILE else info) rest
      | "c"%char =>
          setup_options long_bits
            (if stage_rank ASSEMBLE <? stage_rank (target info)
             then set_target info ASSEMBLE else info) rest
      | "o"%char => setup_options long_bits (set_out_filename info optarg) rest
      | "s"%char =>
          let '(cells, tail, errno) := strtol long_bits optarg in
          if negb (errno =? 0) || negb (String.eqb tail "") || (cells <=? 0)
          then (false, info)
          else setup_options long_bits (set_cells_size info (wrap cells)) rest
      | _ => (false, info)
      end
  end.

(** [int setup_info(info_t *info, int argc, char **argv)]; [operands] are
    [argv[optind]], ..., [argv[argc - 1]] once [getopt] has returned -1. *)
Definition setup_info (long_bits : Z) (info : info_t) (opts : list (ascii * string))
                      (operands : list string) : Z * info_t :=
  match setup_options long_bits info opts with
  | (false, info') => (0, info')
  | (true, info') =>
      match operands with
      | f :: _ => (1, set_in_filename info' f)
      | [] => (0, info')
      end
  end.

(** [strrchr(name, c)]: the index of the last occurrence. *)
Fixpoint strrchr (name : string) (c : ascii) : option nat :=
  match name with
  | EmptyString => None
  | String a r =>
      match strrchr r c with
      | Some i => Some (S i)
      | None => if Ascii.eqb a c then Some 0%nat else None
      end
  end.

(** [char *replace_extension(const char *name, char ext)] *)
Definition replace_extension (e : env) (name : string) (ext : ascii) : outcome string :=
  let len := match strrchr name "." with
             | None => String.length name
             | Some dot => dot
             end in
  if heap_grants e (wrap (Z.of_nat len + 3))
  then Ok (substring 0 len name +:+ "." +:+ String ext "")
  else error ("Out of memory while changing extension of " +:+ name
              +:+ " to " +:+ String ext "").

(** [info] as [main] sets it up before it reads the command line. *)
Definition main_info : info_t :=
  {| in_filename := None; out_filename := None;
     target := LINK; cells_size := wrap 4096 |}.

(** [int main(int argc, char **argv)] up to the end of phase 1; the
    assembler and the linker that phases 2 and 3 run through [system] are
    outside the embedding, and [strdup] is taken to succeed.  The result is
    the assembly text. *)
Definition main (long_bits : Z) (e : env) (opts : list (ascii * string))
                (operands : list string) : outcome (list string) :=
  let '(ok, info) := setup_info long_bits main_info opts operands in
  if ok =? 0 then error "Invalid command line arguments; see 'bfc -h'"
  else
    match in_filename info with
    | None => error "Missing input file; see 'bfc -h'"
    | Some src_filename =>
        asm_filename ←
          match target info, out_filename info with
          | COMPILE, Some out => Ok out
          | _, _ => replace_extension e src_filename "s"
          end;
        compile e info asm_filename src_filename
    end.

(** ** The target: system calls of the generated program

    The generated program runs on Linux for IA-32 and enters the kernel with
    [int 0x80]: [eax] selects the call, [ebx], [ecx] and [edx] carry its
    arguments.  Three calls occur: 1 is [exit(status)], 3 is
    [read(fd, buf, count)] and 4 is [write(fd, buf, count)]; descriptor 0 is
    the standard input and descriptor 1 the standard output. *)

Module IA32.

Inductive reg : Type := EAX | EBX | ECX | EDX | EDI.

Inductive instr : Type :=
| mov_imm (dst : reg) (n : Z)
| mov_reg (dst src : reg)
| int_0x80.

Definition reg_name (r : reg) : string :=
  match r with
  | EAX => "eax" | EBX => "ebx" | ECX => "ecx" | EDX => "edx" | EDI => "edi"
  end.

(** The assembly text of an instruction, as the translator writes it. *)
Definition asm (i : instr) : string :=
  match i with
  | mov_imm dst n => TAB +:+ "mov " +:+ reg_name dst +:+ ", " +:+ fmt_u n +:+ NL
  | mov_reg dst src => TAB +:+ "mov " +:+ reg_name dst +:+ ", " +:+ reg_name src +:+ NL
  | int_0x80 => TAB +:+ "int 0x80" +:+ NL
  end.

(** The instructions of the two I/O templates. *)
Definition io_instrs : list instr :=
  [ mov_imm EAX 3; mov_imm EAX 4; mov_imm EBX 0; mov_imm EBX 1;
    mov_reg ECX EDI; mov_imm EDX 1; int_0x80 ].

(** Reading a line of an I/O template back. *)
Definition decode (line : string) : option instr :=
  List.find (fun i => String.eqb (asm i) line) io_instrs.

Definition regs : Type := reg -> Z.

Definition reg_eqb (a b : reg) : bool :=
  match a, b with
  | EAX, EAX | EBX, EBX | ECX, ECX | EDX, EDX | EDI, EDI => true
  | _, _ => false
  end.

Definition set (r : reg) (v : Z) (rs : regs) : regs :=
  fun r' => if reg_eqb r r' then v else rs r'.

Inductive syscall : Type :=
| sys_exit (status : Z)
| sys_read (fd buf count : Z)
| sys_write (fd buf count : Z).

Definition STDIN_FILENO : Z := 0.
Definition STDOUT_FILENO : Z := 1.

(** [int 0x80] with the registers [rs]. *)
Definition int80 (rs : regs) : option syscall :=
  match rs EAX with
  | 1 => Some (sys_exit (rs EBX))
  | 3 => Some (sys_read (rs EBX) (rs ECX) (rs EDX))
  | 4 => Some (sys_write (rs EBX) (rs ECX) (rs EDX))
  | _ => None
  end.

(** Straight-line code up to its first system call. *)
Fixpoint run (code : list instr) (rs : regs) : option syscall :=
  match code with
  | [] => None
  | mov_imm dst n :: k => run k (set dst n rs)
  | mov_reg dst src :: k => run k (set dst (rs src) rs)
  | int_0x80 :: _ => int80 rs
  end.

(** The system call that a fragment of emitted text makes. *)
Definition exec (lines : list string) (rs : regs) : option syscall :=
  code ← mapM decode lines; run code rs.

End IA32.

(** ** Notions of the specification *)

Definition is_open (c : ascii) : bool := Ascii.eqb c "[".
Definition is_close (c : ascii) : bool := Ascii.eqb c "]".

(** One of the eight symbols of the language. *)
Definition recognized (c : ascii) : bool :=
  existsb (Ascii.eqb c) [">"; "<"; "+"; "-"; ","; "."; "["; "]"]%char.

(** Number of ['['] and of [']'] in a piece of source. *)
Definition opens (src : list ascii) : Z := Z.of_nat (length (List.filter is_open src)).
Definition closes (src : list ascii) : Z := Z.of_nat (length (List.filter is_close src)).

(** Well-formed source: every ['['] has a matching later [']'], properly
    nested.  In [bal_loop] the leading ['['] matches the [']'] that follows
    the body [b]. *)
Inductive balanced : list ascii -> Prop :=
| bal_nil : balanced []
| bal_other c s :
    is_open c = false -> is_close c = false -> balanced s -> balanced (c :: s)
| bal_loop b s :
    balanced b -> balanced s -> balanced ("["%char :: b ++ "]"%char :: s).

(** The labels that the scan of [src] from [st] allocates with [++loop], in
    source order. *)
Fixpoint allocated (e : env) (src : list ascii) (st : state) : list Z :=
  match src with
  | [] => []
  | c :: rest =>
      match step e c st with
      | Ok st' => (if is_open c then [loop st'] else []) ++ allocated e rest st'
      | _ => []
      end
  end.

(** The allocator never grants more than [PTRDIFF_MAX] bytes at once. *)
Definition alloc_sane (e : env) : Prop :=
  forall bytes, heap_grants e bytes = true -> bytes <= PTRDIFF_MAX.

(** The capacities that the loop stack goes through: [STACK_SIZE] and its
    successive growths, as far as a block of that many elements fits in
    [PTRDIFF_MAX] bytes. *)
Fixpoint capacities_from (fuel : nat) (c : Z) : list Z :=
  match fuel with
  | O => []
  | S fuel' =>
      if sizeof_size_t * c <=? PTRDIFF_MAX then
        c :: match grow c with
             | Some c' => capacities_from fuel' c'
             | None => []
             end
      else []
  end.

Definition capacities : list Z := capacities_from 200 STACK_SIZE.

Arguments capacities : simpl never.

(** * Notions used in the statements *)

(** The state after a push onto the block [blk] of capacity [size]. *)
Definition pushed (st : state) (blk : list Z) (size : Z) : state :=
  {| as_ := as_ st ++ open_lines (wrap (loop st + 1));
     stack := <[Z.to_nat (top st) := wrap (loop st + 1)]> blk;
     top := wrap (top st + 1);
     stack_size := size;
     loop := wrap (loop st + 1) |}.

(** The state after a pop that read the label [l]. *)
Definition popped (st : state) (l : Z) : state :=
  {| as_ := as_ st ++ close_lines l;
     stack := stack st;
     top := wrap (top st - 1);
     stack_size := stack_size st;
     loop := loop st |}.

(** The block and capacity that the push of ['['] works on. *)
Definition room (e : env) (st : state) : outcome (list Z * Z) :=
  if top st =? stack_size st then resize e st else Ok (stack st, stack_size st).

(** ** The invariant of the scan

    [top] indexes into the block; the block has at most [2^30] elements,
    since its size in bytes is a [size_t]; the label counter is a
    [size_t]. *)
Definition Inv (st : state) : Prop :=
  0 <= top st <= Z.of_nat (length (stack st)) /\
  Z.of_nat (length (stack st)) <= 2 ^ 30 /\
  0 <= loop st < 2 ^ 32.

(** The growth of one capacity, checked against exact arithmetic: the new
    capacity is [11/10] of the old one rounded down, it is larger, its size
    in bytes is a [size_t], and it is again a capacity unless it exceeds
    what the allocator can grant. *)
Definition capacity_ok (c : Z) : bool :=
  match grow c with
  | Some c' =>
      (c' =? 11 * c / 10) && (c + 1 <=? c') && (sizeof_size_t * c' <=? SIZE_MAX)
      && ((PTRDIFF_MAX <? sizeof_size_t * c') || existsb (Z.eqb c') capacities)
  | None => false
  end.

(** The capacity is one of [capacities] and the block has that many
    elements. *)
Definition Cap (st : state) : Prop :=
  In (stack_size st) capacities /\ Z.of_nat (length (stack st)) = stack_size st.

(** The diagnostic of a failed growth to [size] elements. *)
Definition oom_diag (size : Z) : string :=
  "bfc: " +:+ ("Out of memory while increasing loop stack to size: "
               +:+ fmt_u size +:+ NL) +:+ NL.

Definition is_oom (d : string) : Prop := exists size, d = oom_diag size.

(** No prefix of [src] closes more loops than it has opened on top of the
    [depth] loops that are open already. *)
Definition no_underflow (src : list ascii) (depth : Z) : Prop :=
  forall p s, src = p ++ s -> closes p <= opens p + depth.

(** ** A concrete environment

    One source file [prog.bf] with the given text, every file writable, an
    allocator that grants exactly the requests of at most [PTRDIFF_MAX]
    bytes, fresh storage filled with [0xdeadbeef]. *)
Definition demo_env (text : string) : env :=
  {| fs_read := fun name => if String.eqb name "prog.bf"
                            then Some (list_ascii_of_string text) else None;
     fs_write := fun _ => true;
     heap_grants := fun bytes => bytes <=? PTRDIFF_MAX;
     heap_junk := fun _ => 3735928559 |}.

Definition demo_info : info_t :=
  {| in_filename := Some "prog.bf"; out_filename := None;
     target := LINK; cells_size := 4096 |}.

(** The state in which [compile] enters its loop in [demo_env]. *)
Definition demo_start : state :=
  start 4096 (fresh (demo_env "") 0 1024).

Definition demo_regs : IA32.regs :=
  fun r => match r with IA32.EDI => 134520832 | _ => 0 end.

(** Two states of two translations agree: same text, same depth, same
    capacity, same label counter, same labels below the depth.  What lies
    above the depth, and how long the blocks really are, may differ. *)
Definition agree (s1 s2 : state) : Prop :=
  as_ s1 = as_ s2 /\ top s1 = top s2 /\ stack_size s1 = stack_size s2 /\
  loop s1 = loop s2 /\
  take (Z.to_nat (top s1)) (stack s1) = take (Z.to_nat (top s2)) (stack s2).

(** A second environment: another file name, an allocator that grants no
    more than the initial loop stack, other fresh storage. *)
Definition other_env (text : string) : env :=
  {| fs_read := fun name => if String.eqb name "copy.bf"
                            then Some (list_ascii_of_string text) else None;
     fs_write := fun _ => true;
     heap_grants := fun bytes => bytes <=? 4096;
     heap_junk := fun i => Z.of_nat i |}.

(** A source that nests 1100 loops, more than the initial capacity 1024. *)
Definition deep_src : list ascii :=
  replicate 1100 "["%char ++ replicate 1100 "]"%char.

(** [n] loops with empty bodies, one after the other: [[][][]...]. *)
Fixpoint empty_loops (n : nat) : list ascii :=
  match n with
  | O => []
  | S k => "["%char :: "]"%char :: empty_loops k
  end.

(** [2^32] as a number of loops. *)
Definition two_32 : nat := Z.to_nat (2 ^ 32).

(** Two nested loops. *)
Definition nested_src : list ascii := list_ascii_of_string "+[-[>,.<]]".

(** As many ['['] as the initial loop stack holds. *)
Definition full_src : list ascii := replicate 1024 "["%char.

(** The diagnostic of the failed first allocation of the loop stack. *)
Definition malloc_diag : string :=
  "bfc: " +:+ ("Out of memory while creating loop stack of size "
               +:+ fmt_u STACK_SIZE) +:+ NL.

(** A size argument that is not positive, or that [strtol] does not read to
    its end or cannot represent. *)
Definition bad_size (long_bits : Z) (arg : string) : Prop :=
  let '(cells, tail, errno) := strtol long_bits arg in
  errno <> 0 \/ tail <> "" \/ cells <= 0.

Definition invalid_diag : string :=
  "bfc: " +:+ "Invalid command line arguments; see 'bfc -h'" +:+ NL.

(** ** Templates *)

(** The lines that [compile] writes for a symbol that is no bracket. *)
Definition template (c : ascii) : list string :=
  match c with
  | ">"%char => [TAB +:+ "add edi, 4" +:+ NL]
  | "<"%char => [TAB +:+ "sub edi, 4" +:+ NL]
  | "+"%char => [TAB +:+ "inc DWORD PTR [edi]" +:+ NL]
  | "-"%char => [TAB +:+ "dec DWORD PTR [edi]" +:+ NL]
  | ","%char => io_lines "3" "0"
  | "."%char => io_lines "4" "1"
  | _ => []
  end.

(** The number of lines that [compile] writes for a byte of source. *)
Definition lines_per (c : ascii) : nat :=
  match c with
  | ">"%char | "<"%char | "+"%char | "-"%char => 1
  | ","%char | "."%char => 5
  | "["%char | "]"%char => 3
  | _ => 0
  end.

(** From depth [depth] on, the depth of nesting stays between 0 and [cap]
    after every prefix of [src]. *)
Definition nesting_within (src : list ascii) (depth cap : Z) : Prop :=
  forall p s, src = p ++ s -> 0 <= depth + opens p - closes p <= cap.

(** A check of [nesting_within] that runs. *)
Fixpoint nesting_ok (src : list ascii) (depth cap : Z) : bool :=
  match src with
  | [] => true
  | c :: rest =>
      let depth' := depth + (if is_open c then 1 else 0)
                          - (if is_close c then 1 else 0) in
      (0 <=? depth') && (depth' <=? cap) && nesting_ok rest depth' cap
  end.

(** An environment with two source files, [prog.bf] and [stripped.bf]. *)
Definition two_files_env (text stripped : string) : env :=
  {| fs_read := fun name =>
                  if String.eqb name "prog.bf" then Some (list_ascii_of_string text)
                  else if String.eqb name "stripped.bf"
                       then Some (list_ascii_of_string stripped)
                       else None;
     fs_write := fun _ => true;
     heap_grants := fun bytes => bytes <=? PTRDIFF_MAX;
     heap_junk := fun _ => 0 |}.

(** ** Options *)

(** The body of the option loop for one option: [*info] afterwards, or
    [None] when [setup_info] returns 0 at this option. *)
Definition option_effect (long_bits : Z) (info : info_t) (c : ascii) (optarg : string)
  : option info_t :=
  match c with
  | "S"%char =>
      Some (if stage_rank COMPILE <? stage_rank (target info)
            then set_target info COMPILE else info)
  | "c"%char =>
      Some (if stage_rank ASSEMBLE <? stage_rank (target info)
            then set_target info ASSEMBLE else info)
  | "o"%char => Some (set_out_filename info optarg)
  | "s"%char =>
      let '(cells, tail, errno) := strtol long_bits optarg in
      if negb (errno =? 0) || negb (String.eqb tail "") || (cells <=? 0)
      then None
      else Some (set_cells_size info (wrap cells))
  | _ => None
  end.

(** The arguments given to the option [c], in the order of the command
    line. *)
Definition optargs (c : ascii) (opts : list (ascii * string)) : list string :=
  map snd (List.filter (fun o => Ascii.eqb (fst o) c) opts).

(** Whether the option [c] occurs. *)
Definition has_option (c : ascii) (opts : list (ascii * string)) : bool :=
  existsb (fun o => Ascii.eqb (fst o) c) opts.

Definition missing_diag : string :=
  "bfc: " +:+ "Missing input file; see 'bfc -h'" +:+ NL.

Definition read_diag (src_filename : string) : string :=
  "bfc: " +:+ ("Could not read file " +:+ src_filename) +:+ NL.

Definition write_diag (asm_filename : string) : string :=
  "bfc: " +:+ ("Could not write file " +:+ asm_filename) +:+ NL.



(** [t] is what is left of [s] after some leading characters. *)
Definition suffix_of (t s : string) : Prop := exists p, s = p +:+ t.

(** The value of a decimal numeral read from the left, on top of the value
    [acc] of what was read before. *)
Fixpoint uint_value (d : Decimal.uint) (acc : Z) : Z :=
  match d with
  | Decimal.Nil => acc
  | Decimal.D0 l => uint_value l (acc * 10 + 0)
  | Decimal.D1 l => uint_value l (acc * 10 + 1)
  | Decimal.D2 l => uint_value l (acc * 10 + 2)
  | Decimal.D3 l => uint_value l (acc * 10 + 3)
  | Decimal.D4 l => uint_value l (acc * 10 + 4)
  | Decimal.D5 l => uint_value l (acc * 10 + 5)
  | Decimal.D6 l => uint_value l (acc * 10 + 6)
  | Decimal.D7 l => uint_value l (acc * 10 + 7)
  | Decimal.D8 l => uint_value l (acc * 10 + 8)
  | Decimal.D9 l => uint_value l (acc * 10 + 9)
  end.

(** The bytes of [src] that are no brackets. *)
Definition plain_part (src : list ascii) : list ascii :=
  List.filter (fun c => negb (is_open c || is_close c)) src.

(** The number of ['['] in [src]. *)
Definition loops_in (src : list ascii) : nat := length (List.filter is_open src).

(** The lines that belong to the loop with label [l]: those written at its
    ['['] and those written at its [']']. *)
Definition loop_lines (l : Z) : list string := open_lines l ++ close_lines l.

(** The labels [first + 1], ..., [first + n], counted as a [size_t]. *)
Definition labels_after (first : Z) (n : nat) : list Z :=
  map (fun i => wrap (first + Z.of_nat i)) (seq 1 n).

(** The line that defines the begin label, and the one that defines the
    end label, of the loop with label [l]. *)
Definition begin_marker (l : Z) : string := ".LB" +:+ fmt_u l +:+ ":" +:+ NL.
Definition end_marker (l : Z) : string := ".LE" +:+ fmt_u l +:+ ":" +:+ NL.

(** ** An allocator with memory to spare *)

(** The allocator grants every request of at most [limit] bytes. *)
Definition grants_upto (e : env) (limit : Z) : Prop :=
  forall bytes, 0 <= bytes <= limit -> heap_grants e bytes = true.

(** The largest request that the growth of the loop stack makes while
    loops nest at most [depth] deep: the stack grows when it is full, so
    the grown capacity is 11/10 of a depth below [depth]. *)
Definition stack_bytes (depth : Z) : Z := sizeof_size_t * (11 * depth / 10).

(** * Properties *)

(** ** Characters *)

Lemma step_cases (c : ascii) :
  (c = ">" \/ c = "<" \/ c = "+" \/ c = "-" \/ c = "," \/ c = "." \/
   c = "[" \/ c = "]")%char \/ recognized c = false.
Proof.
  destruct c as [[] [] [] [] [] [] [] []]; vm_compute; auto 20.
Qed.

Lemma step_other e c st : recognized c = false -> step e c st = Ok st.
Proof.
  destruct c as [[] [] [] [] [] [] [] []]; intros H; vm_compute in H;
    try discriminate H; reflexivity.
Qed.

Lemma is_open_true c : is_open c = true -> c = "["%char.
Proof. apply Ascii.eqb_eq. Qed.

Lemma is_close_true c : is_close c = true -> c = "]"%char.
Proof. apply Ascii.eqb_eq. Qed.

Lemma fprintf_nil st : fprintf st [] = st.
Proof. destruct st; unfold fprintf; simpl. now rewrite app_nil_r. Qed.

(** A character that is no bracket only appends text, and the text depends
    on the character alone. *)
Lemma step_plain c :
  is_open c = false -> is_close c = false ->
  exists lines, forall e st, step e c st = Ok (fprintf st lines).
Proof.
  intros Ho Hc.
  destruct (step_cases c) as [H | H].
  - destruct H as [->|[->|[->|[->|[->|[->|[->| ->]]]]]]];
      try discriminate; simpl; eauto.
  - exists []. intros e st. now rewrite fprintf_nil, step_other.
Qed.

(** ** Arithmetic modulo [2^32] *)

Lemma wrap_small n : 0 <= n < 2 ^ 32 -> wrap n = n.
Proof. intros H. unfold wrap. now apply Z.mod_small. Qed.

Lemma wrap_range n : 0 <= wrap n < 2 ^ 32.
Proof. unfold wrap. apply Z.mod_pos_bound. lia. Qed.

Lemma wrap_succ a b : wrap (wrap (a + b) + 1) = wrap (a + (b + 1)).
Proof.
  unfold wrap. rewrite Zplus_mod_idemp_l. f_equal. lia.
Qed.

(** ** The allocator *)

Lemma length_fresh e from n : length (fresh e from n) = n.
Proof. unfold fresh. now rewrite length_map, length_seq. Qed.

Lemma malloc_length e bytes blk :
  malloc e bytes = Some blk -> length blk = Z.to_nat (bytes / sizeof_size_t).
Proof.
  unfold malloc. destruct (heap_grants e bytes); [|discriminate].
  intros [= <-]. apply length_fresh.
Qed.

Lemma realloc_length e blk bytes blk' :
  realloc e blk bytes = Some blk' -> length blk' = Z.to_nat (bytes / sizeof_size_t).
Proof.
  unfold realloc. destruct (heap_grants e bytes); [|discriminate].
  intros [= <-]. rewrite length_app, length_take, length_fresh. lia.
Qed.

Lemma realloc_grants e blk bytes blk' :
  realloc e blk bytes = Some blk' -> heap_grants e bytes = true.
Proof. unfold realloc. now destruct (heap_grants e bytes). Qed.

(** What lies below both sizes survives a [realloc]. *)
Lemma realloc_take e blk bytes blk' (n : nat) :
  realloc e blk bytes = Some blk' ->
  (n <= length blk)%nat -> (n <= length blk')%nat ->
  take n blk' = take n blk.
Proof.
  intros H Hn Hn'. pose proof (realloc_length _ _ _ _ H) as Hl.
  unfold realloc in H. destruct (heap_grants e bytes); [|discriminate].
  injection H as <-.
  set (m := Z.to_nat (bytes / sizeof_size_t)) in *.
  rewrite take_app_le.
  - rewrite take_take. f_equal. lia.
  - rewrite length_take. lia.
Qed.

(** ** One step of the scan *)

Lemma step_open_eq e st :
  step e "[" st =
  match room e st with
  | Ok (blk, size) =>
      if top st <? Z.of_nat (length blk) then Ok (pushed st blk size) else Undefined
  | Fatal d => Fatal d
  | Undefined => Undefined
  end.
Proof.
  unfold room. simpl.
  destruct (if top st =? stack_size st then resize e st else Ok (stack st, stack_size st))
    as [[blk size]| |]; reflexivity.
Qed.

Lemma step_close_eq e st :
  step e "]" st =
  match stack st !! Z.to_nat (wrap (top st - 1)) with
  | Some l => Ok (popped st l)
  | None => Undefined
  end.
Proof. reflexivity. Qed.

Lemma step_open_Ok e st st' :
  step e "[" st = Ok st' ->
  exists blk size, room e st = Ok (blk, size) /\
                   top st < Z.of_nat (length blk) /\ st' = pushed st blk size.
Proof.
  rewrite step_open_eq. destruct (room e st) as [[blk size]| |]; try discriminate.
  destruct (Z.ltb_spec (top st) (Z.of_nat (length blk))); [|discriminate].
  intros [= <-]. eauto.
Qed.

Lemma step_close_Ok e st st' :
  step e "]" st = Ok st' ->
  exists l, stack st !! Z.to_nat (wrap (top st - 1)) = Some l /\ st' = popped st l.
Proof.
  rewrite step_close_eq.
  destruct (stack st !! Z.to_nat (wrap (top st - 1))) as [l|]; [|discriminate].
  intros [= <-]. eauto.
Qed.

(** The block that [room] delivers has fewer than [2^30] elements whenever
    it is new, and keeps what lay below [top]. *)
Lemma room_Ok e st blk size :
  room e st = Ok (blk, size) ->
  (blk = stack st /\ size = stack_size st /\ top st <> stack_size st) \/
  (top st = stack_size st /\ grow (stack_size st) = Some size /\
   realloc e (stack st) (wrap (sizeof_size_t * size)) = Some blk).
Proof.
  unfold room. destruct (Z.eqb_spec (top st) (stack_size st)) as [Heq|Hne].
  - unfold resize. destruct (grow (stack_size st)) as [size'|]; [|discriminate].
    destruct (realloc e (stack st) (wrap (sizeof_size_t * size'))) as [blk'|] eqn:Hr;
      [|discriminate].
    intros [= <- <-]. right. auto.
  - intros [= <- <-]. left. auto.
Qed.

Lemma realloc_bound e blk n blk' :
  realloc e blk (wrap n) = Some blk' -> Z.of_nat (length blk') <= 2 ^ 30.
Proof.
  intros H. rewrite (realloc_length _ _ _ _ H).
  pose proof (wrap_range n). unfold sizeof_size_t.
  rewrite Z2Nat.id by (apply Z.div_pos; lia).
  apply Z.lt_le_incl, Z.div_lt_upper_bound; lia.
Qed.

Lemma room_bound e st blk size :
  Inv st -> room e st = Ok (blk, size) -> Z.of_nat (length blk) <= 2 ^ 30.
Proof.
  intros (_ & Hb & _) H.
  destruct (room_Ok _ _ _ _ H) as [(-> & _ & _) | (_ & _ & Hr)].
  - exact Hb.
  - eapply realloc_bound; eauto.
Qed.

(** What lay below [top] is still there after [room]. *)
Lemma room_take e st blk size :
  Inv st -> room e st = Ok (blk, size) -> top st < Z.of_nat (length blk) ->
  take (Z.to_nat (top st)) blk = take (Z.to_nat (top st)) (stack st).
Proof.
  intros (Ht & _) H Hlt.
  destruct (room_Ok _ _ _ _ H) as [(-> & _ & _) | (_ & _ & Hr)].
  - reflexivity.
  - eapply realloc_take; eauto; lia.
Qed.

Lemma step_open_Inv e st st' :
  Inv st -> step e "[" st = Ok st' ->
  Inv st' /\ top st' = top st + 1 /\ loop st' = wrap (loop st + 1) /\
  stack st' !! Z.to_nat (top st) = Some (loop st') /\
  take (Z.to_nat (top st)) (stack st') = take (Z.to_nat (top st)) (stack st) /\
  as_ st' = as_ st ++ open_lines (loop st').
Proof.
  intros HI H. destruct (step_open_Ok _ _ _ H) as (blk & size & Hroom & Hlt & ->).
  pose proof (room_bound _ _ _ _ HI Hroom) as Hb.
  pose proof (room_take _ _ _ _ HI Hroom Hlt) as Htk.
  pose proof (wrap_range (loop st + 1)) as Hw.
  destruct HI as (Ht & _ & _). unfold pushed, Inv; simpl.
  rewrite length_insert, wrap_small by lia.
  repeat split; try lia.
  - apply list_lookup_insert_eq. lia.
  - rewrite take_insert_ge by lia. exact Htk.
Qed.

Lemma step_close_Inv e st st' :
  Inv st -> step e "]" st = Ok st' ->
  Inv st' /\ 0 < top st /\ top st' = top st - 1 /\ loop st' = loop st /\
  stack st' = stack st /\ stack_size st' = stack_size st /\
  exists l, stack st !! Z.to_nat (top st - 1) = Some l /\
            as_ st' = as_ st ++ close_lines l.
Proof.
  intros (Ht & Hb & Hl32) H. destruct (step_close_Ok _ _ _ H) as (l & Hl & ->).
  assert (0 < top st) as Hpos.
  { destruct (Z.eq_dec (top st) 0) as [H0|]; [|lia].
    rewrite H0 in Hl. apply lookup_lt_Some in Hl.
    change (wrap (0 - 1)) with (2 ^ 32 - 1) in Hl. lia. }
  rewrite wrap_small in Hl by lia.
  unfold popped, Inv; simpl. rewrite wrap_small by lia.
  repeat split; try lia. eauto.
Qed.

Lemma step_plain_Inv e c st st' :
  is_open c = false -> is_close c = false -> step e c st = Ok st' ->
  top st' = top st /\ loop st' = loop st /\ stack st' = stack st /\
  stack_size st' = stack_size st.
Proof.
  intros Ho Hc H. destruct (step_plain c Ho Hc) as [lines Hl].
  rewrite Hl in H. injection H as <-. auto.
Qed.

(** ** The scan *)

Lemma scan_app e p s st :
  scan e (p ++ s) st = st' ← scan e p st; scan e s st'.
Proof.
  revert st. induction p as [|c p IH]; intros st; simpl; [reflexivity|].
  destruct (step e c st) as [st1| |]; simpl; auto.
Qed.

Lemma scan_cons e c s st :
  scan e (c :: s) st = st' ← step e c st; scan e s st'.
Proof. reflexivity. Qed.

Lemma scan_snoc e p c st st1 :
  scan e p st = Ok st1 -> scan e (p ++ [c]) st = step e c st1.
Proof.
  intros H. rewrite scan_app, H. simpl.
  destruct (step e c st1); reflexivity.
Qed.

(** A scan that completes has completed on every prefix. *)
Lemma scan_prefix_Ok e p s st st' :
  scan e (p ++ s) st = Ok st' ->
  exists st1, scan e p st = Ok st1 /\ scan e s st1 = Ok st'.
Proof.
  rewrite scan_app. destruct (scan e p st) as [st1| |]; simpl; try discriminate.
  eauto.
Qed.

Lemma opens_nil : opens [] = 0.
Proof. reflexivity. Qed.

Lemma closes_nil : closes [] = 0.
Proof. reflexivity. Qed.

Lemma opens_cons c s : opens (c :: s) = (if is_open c then 1 else 0) + opens s.
Proof.
  unfold opens. cbn [List.filter]. destruct (is_open c); cbn [length]; lia.
Qed.

Lemma closes_cons c s : closes (c :: s) = (if is_close c then 1 else 0) + closes s.
Proof.
  unfold closes. cbn [List.filter]. destruct (is_close c); cbn [length]; lia.
Qed.

Lemma opens_app p s : opens (p ++ s) = opens p + opens s.
Proof.
  induction p as [|c p IH]; [rewrite opens_nil; reflexivity|].
  rewrite <- app_comm_cons, !opens_cons, IH. lia.
Qed.

Lemma closes_app p s : closes (p ++ s) = closes p + closes s.
Proof.
  induction p as [|c p IH]; [rewrite closes_nil; reflexivity|].
  rewrite <- app_comm_cons, !closes_cons, IH. lia.
Qed.

Lemma opens_nonneg s : 0 <= opens s.
Proof. unfold opens. lia. Qed.

Lemma closes_nonneg s : 0 <= closes s.
Proof. unfold closes. lia. Qed.

Lemma open_not_close c : is_open c = true -> is_close c = false.
Proof. intros H. apply is_open_true in H. now subst. Qed.

(** A step that returns moves the depth by one on a bracket, and the label
    counter by one on ['[']. *)
Lemma step_Inv e c st st' :
  Inv st -> step e c st = Ok st' ->
  Inv st' /\
  top st' = top st + (if is_open c then 1 else 0) - (if is_close c then 1 else 0) /\
  loop st' = wrap (loop st + (if is_open c then 1 else 0)).
Proof.
  intros HI H.
  destruct (is_open c) eqn:Ho.
  - pose proof (open_not_close _ Ho) as Hc. rewrite Hc.
    apply is_open_true in Ho. subst c.
    destruct (step_open_Inv _ _ _ HI H) as (? & ? & ? & _).
    split; [assumption|]. split; [lia|assumption].
  - assert (wrap (loop st + 0) = loop st) as Hw.
    { rewrite Z.add_0_r. apply wrap_small, HI. }
    rewrite Hw. destruct (is_close c) eqn:Hc.
    + apply is_close_true in Hc. subst c.
      destruct (step_close_Inv _ _ _ HI H) as (? & ? & ? & ? & _).
      split; [assumption|]. split; [lia|assumption].
    + destruct (step_plain_Inv _ _ _ _ Ho Hc H) as (Ht & Hl & Hs & _).
      unfold Inv in *. rewrite Ht, Hl, Hs. split; [exact HI|]. split; [lia|reflexivity].
Qed.

(** Depth and label counter after a scan that returns: the depth is the
    number of ['['] minus the number of [']'] read, the counter has advanced
    by the number of ['[']. *)
Lemma scan_Inv e p : forall st st',
  Inv st -> scan e p st = Ok st' ->
  Inv st' /\ top st' = top st + opens p - closes p /\
  loop st' = wrap (loop st + opens p).
Proof.
  induction p as [|c p IH]; intros st st' HI H.
  - injection H as <-. rewrite opens_nil, closes_nil.
    split; [exact HI|]. split; [lia|].
    replace (loop st + 0) with (loop st) by lia.
    symmetry. apply wrap_small, HI.
  - rewrite scan_cons in H. destruct (step e c st) as [st1| |] eqn:Hs; try discriminate.
    simpl in H. destruct (step_Inv _ _ _ _ HI Hs) as (HI1 & Ht1 & Hl1).
    destruct (IH _ _ HI1 H) as (HI' & Ht' & Hl').
    rewrite opens_cons, closes_cons. split; [exact HI'|]. split; [lia|].
    rewrite Hl', Hl1. unfold wrap. rewrite Zplus_mod_idemp_l. f_equal. lia.
Qed.

Lemma start_Inv e cells blk :
  malloc e (wrap (STACK_SIZE * sizeof_size_t)) = Some blk ->
  Inv (start cells blk) /\ Z.of_nat (length blk) = STACK_SIZE.
Proof.
  intros H. apply malloc_length in H.
  change (Z.to_nat (wrap (STACK_SIZE * sizeof_size_t) / sizeof_size_t))
    with 1024%nat in H.
  unfold Inv, start; simpl. rewrite H. unfold STACK_SIZE. lia.
Qed.

(** ** Balanced source and the LIFO discipline *)

Lemma take_le_eq {A} (n m : nat) (l1 l2 : list A) :
  (n <= m)%nat -> take m l1 = take m l2 -> take n l1 = take n l2.
Proof.
  intros Hle H.
  rewrite <- (Nat.min_l n m Hle), <- !take_take, H. reflexivity.
Qed.

Lemma lookup_take_eq {A} (n i : nat) (l1 l2 : list A) :
  (i < n)%nat -> take n l1 = take n l2 -> l1 !! i = l2 !! i.
Proof.
  intros Hlt H.
  rewrite <- (lookup_take_lt l1 n i Hlt), <- (lookup_take_lt l2 n i Hlt), H.
  reflexivity.
Qed.

(** The scan of a balanced piece of source returns to the depth at which it
    began and leaves everything below that depth as it was. *)
Lemma scan_balanced e b :
  balanced b -> forall st st',
  Inv st -> scan e b st = Ok st' ->
  top st' = top st /\
  take (Z.to_nat (top st)) (stack st') = take (Z.to_nat (top st)) (stack st).
Proof.
  induction 1 as [|c s Ho Hc Hs IHs|b s Hb IHb Hs IHs]; intros st st' HI H.
  - injection H as <-. auto.
  - rewrite scan_cons in H.
    destruct (step e c st) as [st1| |] eqn:H1; try discriminate. simpl in H.
    destruct (step_Inv _ _ _ _ HI H1) as (HI1 & _).
    destruct (step_plain_Inv _ _ _ _ Ho Hc H1) as (Ht & _ & Hst & _).
    destruct (IHs _ _ HI1 H) as (Ht' & Htk). rewrite Ht, Hst in *. auto.
  - rewrite scan_cons in H.
    destruct (step e "[" st) as [st1| |] eqn:H1; try discriminate. simpl in H.
    destruct (scan_prefix_Ok _ _ _ _ _ H) as (st2 & H2 & H3).
    rewrite scan_cons in H3.
    destruct (step e "]" st2) as [st3| |] eqn:H4; try discriminate. simpl in H3.
    destruct (step_open_Inv _ _ _ HI H1) as (HI1 & Ht1 & _ & _ & Htk1 & _).
    destruct (IHb _ _ HI1 H2) as (Ht2 & Htk2).
    destruct (scan_Inv _ _ _ _ HI1 H2) as (HI2 & _).
    destruct (step_close_Inv _ _ _ HI2 H4) as (HI3 & _ & Ht3 & _ & Hst3 & _).
    destruct (IHs _ _ HI3 H3) as (Ht' & Htk').
    assert (top st3 = top st) as E by lia.
    rewrite E in *. split; [lia|].
    rewrite Htk', Hst3, <- Htk1.
    apply (take_le_eq _ (Z.to_nat (top st1))); [lia|exact Htk2].
Qed.

(** The [']'] that closes a balanced body pops the label that the ['[']
    before the body pushed. *)
Lemma scan_loop_match e b st st1 st2 :
  balanced b -> Inv st ->
  step e "[" st = Ok st1 -> scan e b st1 = Ok st2 ->
  step e "]" st2 = Ok (popped st2 (loop st1)) /\
  top (popped st2 (loop st1)) = top st.
Proof.
  intros Hb HI H1 H2.
  destruct (step_open_Inv _ _ _ HI H1) as (HI1 & Ht1 & _ & Hl & _).
  destruct (scan_balanced _ _ Hb _ _ HI1 H2) as (Ht2 & Htk2).
  assert (0 <= top st) as Hpos by apply HI.
  assert (stack st2 !! Z.to_nat (top st) = Some (loop st1)) as Hl2.
  { rewrite <- Hl. apply (lookup_take_eq (Z.to_nat (top st1))); [lia|exact Htk2]. }
  rewrite step_close_eq. rewrite Ht2, Ht1.
  replace (top st + 1 - 1) with (top st) by lia.
  destruct HI as (? & ? & ?).
  rewrite wrap_small by lia. rewrite Hl2. split; [reflexivity|].
  unfold popped; simpl. rewrite Ht2, Ht1.
  replace (top st + 1 - 1) with (top st) by lia. apply wrap_small. lia.
Qed.

(** In balanced source no prefix closes more loops than it has opened, and
    the whole closes as many as it opens. *)
Lemma balanced_counts b :
  balanced b ->
  opens b = closes b /\ forall p s, b = p ++ s -> closes p <= opens p.
Proof.
  induction 1 as [|c s Ho Hc Hs [IHe IHp]|b s Hb [IHbe IHbp] Hs [IHse IHsp]].
  - split; [reflexivity|]. intros p s H. symmetry in H.
    apply app_eq_nil in H as [-> _]. rewrite closes_nil, opens_nil. lia.
  - split.
    + rewrite opens_cons, closes_cons, Ho, Hc. lia.
    + intros [|c' p] s' H; [rewrite closes_nil, opens_nil; lia|].
      injection H as <- H. rewrite opens_cons, closes_cons, Ho, Hc.
      specialize (IHp _ _ H). lia.
  - split.
    + rewrite opens_cons, closes_cons, opens_app, closes_app, opens_cons, closes_cons.
      simpl. lia.
    + intros [|c' p] s' H; [rewrite closes_nil, opens_nil; lia|].
      injection H as <- H. rewrite opens_cons, closes_cons. simpl.
      (* p is a prefix of b, or b ++ "]" followed by a prefix of s *)
      symmetry in H. apply app_eq_inv in H as [(k & Hp1 & Hs1)|(k & Hb1 & Hs1)].
      * destruct k as [|c'' k].
        -- rewrite app_nil_r in Hp1. subst p. lia.
        -- injection Hs1 as <- Hs1. subst p.
           rewrite opens_app, closes_app, opens_cons, closes_cons. simpl.
           specialize (IHsp _ _ Hs1). lia.
      * specialize (IHbp _ _ Hb1). lia.
Qed.

(** ** The capacities of the loop stack *)

Lemma capacities_ok : forallb capacity_ok capacities = true.
Proof. vm_compute. reflexivity. Qed.

Lemma capacity_growth c :
  In c capacities ->
  exists c', grow c = Some c' /\ c' = 11 * c / 10 /\ c + 1 <= c' /\
             sizeof_size_t * c' <= SIZE_MAX /\
             (sizeof_size_t * c' <= PTRDIFF_MAX -> In c' capacities).
Proof.
  intros Hin. pose proof capacities_ok as H.
  rewrite forallb_forall in H. specialize (H _ Hin).
  unfold capacity_ok in H. destruct (grow c) as [c'|]; [|discriminate].
  apply andb_prop in H as [H H4]. apply andb_prop in H as [H H3].
  apply andb_prop in H as [H1 H2].
  exists c'. repeat split; try lia.
  intros Hle. apply orb_prop in H4 as [H4|H4]; [lia|].
  apply existsb_exists in H4 as (x & Hx & Heq).
  apply Z.eqb_eq in Heq. now subst.
Qed.

Lemma capacities_positive c : In c capacities -> STACK_SIZE <= c.
Proof.
  intros Hin.
  assert (forallb (Z.leb STACK_SIZE) capacities = true) as H by (vm_compute; reflexivity).
  rewrite forallb_forall in H. specialize (H _ Hin). lia.
Qed.

Lemma start_Cap e cells blk :
  malloc e (wrap (STACK_SIZE * sizeof_size_t)) = Some blk -> Cap (start cells blk).
Proof.
  intros H. destruct (start_Inv e cells blk H) as [_ Hl].
  split; [|exact Hl]. cbn [start stack_size]. vm_compute. auto.
Qed.

(** With an allocator that grants at most [PTRDIFF_MAX] bytes, the push has
    room unless the allocator refuses the growth. *)
Lemma room_sane e st :
  alloc_sane e -> Inv st -> Cap st ->
  match room e st with
  | Ok (blk, size) =>
      top st < Z.of_nat (length blk) /\ Z.of_nat (length blk) = size /\
      In size capacities /\
      (top st <> stack_size st /\ size = stack_size st /\ blk = stack st \/
       top st = stack_size st /\ size = 11 * stack_size st / 10 /\
       stack_size st + 1 <= size /\
       heap_grants e (sizeof_size_t * size) = true)
  | Fatal d =>
      top st = stack_size st /\
      heap_grants e (sizeof_size_t * (11 * stack_size st / 10)) = false /\
      d = oom_diag (11 * stack_size st / 10)
  | Undefined => False
  end.
Proof.
  intros Hsane (Ht & Hb & _) (Hin & Hlen).
  unfold room. destruct (Z.eqb_spec (top st) (stack_size st)) as [Heq|Hne].
  - destruct (capacity_growth _ Hin) as (c' & Hg & Hc' & Hgt & Hfit & Hnext).
    unfold resize. rewrite Hg.
    pose proof (capacities_positive _ Hin) as Hpos. unfold STACK_SIZE in Hpos.
    assert (wrap (sizeof_size_t * c') = sizeof_size_t * c') as Hw.
    { apply wrap_small. unfold sizeof_size_t, SIZE_MAX in *. lia. }
    rewrite Hw.
    destruct (realloc e (stack st) (sizeof_size_t * c')) as [blk|] eqn:Hr.
    + pose proof (realloc_length _ _ _ _ Hr) as Hl.
      pose proof (realloc_grants _ _ _ _ Hr) as Hgr.
      assert (Z.of_nat (length blk) = c') as Hl'.
      { rewrite Hl. unfold sizeof_size_t in *.
        rewrite Z.mul_comm, Z.div_mul by lia. lia. }
      repeat split; try lia.
      * apply Hnext. apply Hsane. exact Hgr.
      * right. subst c'. repeat split; auto; lia.
    + unfold realloc in Hr.
      destruct (heap_grants e (sizeof_size_t * c')) eqn:Hgr; [discriminate|].
      subst c'. repeat split; auto.
  - repeat split; try lia; auto.
Qed.

Lemma step_open_sane e st :
  alloc_sane e -> Inv st -> Cap st ->
  match step e "[" st with
  | Ok st' =>
      Inv st' /\ Cap st' /\ top st < stack_size st' /\
      (top st <> stack_size st /\ stack_size st' = stack_size st \/
       top st = stack_size st /\ stack_size st' = 11 * stack_size st / 10 /\
       stack_size st + 1 <= stack_size st' /\
       grow (stack_size st) = Some (stack_size st'))
  | Fatal d =>
      top st = stack_size st /\
      heap_grants e (sizeof_size_t * (11 * stack_size st / 10)) = false /\
      d = oom_diag (11 * stack_size st / 10)
  | Undefined => False
  end.
Proof.
  intros Hsane HI HC. pose proof (room_sane e st Hsane HI HC) as Hroom.
  destruct (step e "[" st) as [st'| |] eqn:Hs.
  - destruct (step_open_Inv _ _ _ HI Hs) as (HI' & _).
    destruct (step_open_Ok _ _ _ Hs) as (blk & size & Hr & Hlt & ->).
    rewrite Hr in Hroom. destruct Hroom as (_ & Hl & Hin & Hcase).
    unfold Cap, pushed in *; cbn [stack_size stack top loop as_].
    rewrite length_insert.
    split; [exact HI'|]. split; [split; [exact Hin|exact Hl]|]. split; [lia|].
    destruct Hcase as [(? & -> & _)|(? & Hz & ? & _)]; [left; auto|].
    right. repeat split; auto.
    destruct (capacity_growth _ (proj1 HC)) as (c' & Hg & Hc' & _).
    rewrite Hg, Hz, Hc'. reflexivity.
  - rewrite step_open_eq in Hs.
    destruct (room e st) as [[blk size]| |]; try discriminate.
    + destruct (top st <? Z.of_nat (length blk)); discriminate.
    + injection Hs as <-. exact Hroom.
  - rewrite step_open_eq in Hs.
    destruct (room e st) as [[blk size]| |]; try discriminate; auto.
    destruct Hroom as (Hlt & _).
    destruct (Z.ltb_spec (top st) (Z.of_nat (length blk))); [discriminate|lia].
Qed.

Lemma step_close_sane e st :
  Inv st -> Cap st -> 0 < top st ->
  exists l, stack st !! Z.to_nat (top st - 1) = Some l /\
            step e "]" st = Ok (popped st l) /\
            Inv (popped st l) /\ Cap (popped st l).
Proof.
  intros (Ht & Hb & Hl) HC Hpos.
  destruct (lookup_lt_is_Some_2 (stack st) (Z.to_nat (top st - 1))) as [l Hlk]; [lia|].
  exists l. rewrite step_close_eq, wrap_small, Hlk by lia.
  split; [reflexivity|]. split; [reflexivity|]. split.
  - unfold Inv, popped; cbn [top stack loop]. rewrite wrap_small by lia. lia.
  - unfold Cap, popped; cbn [stack_size stack]. exact HC.
Qed.

Lemma step_sane e c st :
  alloc_sane e -> Inv st -> Cap st -> (is_close c = true -> 0 < top st) ->
  match step e c st with
  | Ok st' => Inv st' /\ Cap st'
  | Fatal d => is_oom d
  | Undefined => False
  end.
Proof.
  intros Hsane HI HC Hpos.
  destruct (is_open c) eqn:Ho; [|destruct (is_close c) eqn:Hc].
  - apply is_open_true in Ho. subst c.
    pose proof (step_open_sane e st Hsane HI HC) as H.
    destruct (step e "[" st) as [st'| |]; auto.
    + destruct H as (? & ? & _). auto.
    + destruct H as (_ & _ & ->). eexists; eauto.
  - apply is_close_true in Hc. subst c.
    destruct (step_close_sane e st HI HC (Hpos eq_refl)) as (l & _ & -> & ? & ?).
    auto.
  - destruct (step_plain c Ho Hc) as [lines Hl]. rewrite Hl.
    split; [apply HI|apply HC].
Qed.

Lemma no_underflow_head c src d :
  no_underflow (c :: src) d -> is_close c = true -> 0 < d.
Proof.
  intros H Hc. specialize (H [c] src eq_refl).
  rewrite closes_cons, opens_cons, Hc, closes_nil, opens_nil in H.
  rewrite (proj1 (not_true_iff_false _)) in H; [lia|].
  intros Ho. apply open_not_close in Ho. congruence.
Qed.

Lemma no_underflow_tail c src d :
  no_underflow (c :: src) d ->
  no_underflow src (d + (if is_open c then 1 else 0) - (if is_close c then 1 else 0)).
Proof.
  intros H p s Heq. specialize (H (c :: p) s). rewrite Heq in H.
  specialize (H eq_refl). rewrite closes_cons, opens_cons in H. lia.
Qed.

(** With a sane allocator and no pop below the depth at which the scan
    begins, the scan returns or stops for lack of memory: no access leaves
    the loop stack. *)
Lemma scan_sane e src : forall st,
  alloc_sane e -> Inv st -> Cap st -> no_underflow src (top st) ->
  match scan e src st with
  | Ok st' => Inv st' /\ Cap st'
  | Fatal d => is_oom d
  | Undefined => False
  end.
Proof.
  induction src as [|c src IH]; intros st Hsane HI HC Hnu.
  - simpl. auto.
  - rewrite scan_cons.
    pose proof (step_sane e c st Hsane HI HC (no_underflow_head _ _ _ Hnu)) as Hs.
    destruct (step e c st) as [st1| |] eqn:H1; simpl; auto.
    destruct Hs as (HI1 & HC1).
    apply IH; auto.
    destruct (step_Inv _ _ _ _ HI H1) as (_ & -> & _).
    apply no_underflow_tail. exact Hnu.
Qed.

Lemma balanced_no_underflow b : balanced b -> no_underflow b 0.
Proof.
  intros Hb p s Heq. destruct (balanced_counts b Hb) as [_ H].
  specialize (H _ _ Heq). lia.
Qed.

(** Undefined behaviour on a prefix is undefined behaviour of the whole. *)
Lemma scan_prefix_defined e p s st :
  scan e (p ++ s) st <> Undefined -> scan e p st <> Undefined.
Proof.
  rewrite scan_app. intros H Hp. rewrite Hp in H. now apply H.
Qed.

Lemma demo_sane text : alloc_sane (demo_env text).
Proof. intros bytes H. simpl in H. lia. Qed.

Lemma demo_malloc text :
  malloc (demo_env text) (wrap (STACK_SIZE * sizeof_size_t))
  = Some (fresh (demo_env "") 0 1024).
Proof. reflexivity. Qed.

(** ** The I/O symbols *)

(** C1, as amended.  For every occurrence of [','] the translator appends
    the five lines that load 3 into [eax], 0 into [ebx], the cell pointer
    into [ecx] and 1 into [edx] and enter the kernel: the running program
    reads one byte from its standard input into the current cell.  For
    every occurrence of ['.'] it appends the same lines with 4 in [eax] and
    1 in [ebx]: the running program writes the one byte at the current cell
    to its standard output.  Nothing else in the state changes. *)
Theorem io_symbols_syscalls (e : env) (p : list ascii) (st0 st : state) (rs : IA32.regs) :
  step e "," st = Ok (fprintf st (io_lines "3" "0")) /\
  step e "." st = Ok (fprintf st (io_lines "4" "1")) /\
  scan e (p ++ [","%char]) st0 = (s ← scan e p st0; Ok (fprintf s (io_lines "3" "0"))) /\
  scan e (p ++ ["."%char]) st0 = (s ← scan e p st0; Ok (fprintf s (io_lines "4" "1"))) /\
  IA32.exec (io_lines "3" "0") rs
    = Some (IA32.sys_read IA32.STDIN_FILENO (rs IA32.EDI) 1) /\
  IA32.exec (io_lines "4" "1") rs
    = Some (IA32.sys_write IA32.STDOUT_FILENO (rs IA32.EDI) 1).
Proof.
  repeat split; try reflexivity.
  - rewrite scan_app. destruct (scan e p st0); reflexivity.
  - rewrite scan_app. destruct (scan e p st0); reflexivity.
Qed.

(** C1, as stated, fails: the lines emitted for [','] make the running
    program read from descriptor 0, not write to its output stream. *)
Lemma comma_is_not_write :
  step (demo_env ",") "," demo_start = Ok (fprintf demo_start (io_lines "3" "0")) /\
  IA32.exec (io_lines "3" "0") demo_regs
    = Some (IA32.sys_read 0 (demo_regs IA32.EDI) 1) /\
  IA32.exec (io_lines "3" "0") demo_regs
    <> Some (IA32.sys_write IA32.STDOUT_FILENO (demo_regs IA32.EDI) 1).
Proof.
  repeat split; try reflexivity. discriminate.
Qed.

(** ** The scenario [[-]] *)

(** C7.  For the input [[-]] the assembly text is the prologue, then in
    this order: the comparison of the current cell with zero and the jump
    to [.LE1] if it is zero, the begin marker [.LB1:], the one decrement,
    the comparison and the jump to [.LB1] if the cell is not zero, the end
    marker [.LE1:]; then the epilogue.  One label pair, the jump to the end
    before the begin marker, the decrement between the markers, the jump
    back before the end marker. *)
Theorem clear_loop_output (e : env) (info : info_t) (asm_filename src_filename : string) :
  fs_read e src_filename = Some (list_ascii_of_string "[-]") ->
  fs_write e asm_filename = true ->
  heap_grants e 4096 = true ->
  compile e info asm_filename src_filename =
  Ok (prologue (cells_size info) ++
      [ TAB +:+ "cmp DWORD PTR [edi], 0" +:+ NL;
        TAB +:+ "jz .LE1" +:+ NL;
        ".LB1:" +:+ NL;
        TAB +:+ "dec DWORD PTR [edi]" +:+ NL;
        TAB +:+ "cmp DWORD PTR [edi], 0" +:+ NL;
        TAB +:+ "jnz .LB1" +:+ NL;
        ".LE1:" +:+ NL ] ++
      epilogue).
Proof.
  intros Hr Hw Hg. unfold compile, malloc. rewrite Hr, Hw. simpl negb. cbv iota.
  change (wrap (STACK_SIZE * sizeof_size_t)) with 4096. rewrite Hg.
  reflexivity.
Qed.

Lemma clear_loop_output_witness :
  compile (demo_env "[-]") demo_info "prog.s" "prog.bf" =
  Ok (prologue 4096 ++
      [ TAB +:+ "cmp DWORD PTR [edi], 0" +:+ NL;
        TAB +:+ "jz .LE1" +:+ NL;
        ".LB1:" +:+ NL;
        TAB +:+ "dec DWORD PTR [edi]" +:+ NL;
        TAB +:+ "cmp DWORD PTR [edi], 0" +:+ NL;
        TAB +:+ "jnz .LB1" +:+ NL;
        ".LE1:" +:+ NL ] ++
      epilogue).
Proof.
  apply (clear_loop_output (demo_env "[-]") demo_info "prog.s" "prog.bf");
    reflexivity.
Defined.

(** ** Bytes that are no symbols *)

Lemma scan_unrecognized e src st :
  Forall (fun c => recognized c = false) src -> scan e src st = Ok st.
Proof.
  induction 1 as [|c src Hc _ IH]; [reflexivity|].
  rewrite scan_cons, step_other by exact Hc. exact IH.
Qed.

(** C8.  A byte that is none of the eight symbols leaves the state of the
    translator as it is: no line is written, the label counter and the
    loop stack keep their values.  A source that consists of such bytes
    only is therefore translated to the prologue followed immediately by
    the epilogue. *)
Theorem unrecognized_bytes_inert (e : env) (info : info_t)
    (asm_filename src_filename : string) (src : list ascii) :
  fs_read e src_filename = Some src ->
  fs_write e asm_filename = true ->
  heap_grants e 4096 = true ->
  Forall (fun c => recognized c = false) src ->
  (forall c st, recognized c = false -> step e c st = Ok st) /\
  (forall st, scan e src st = Ok st) /\
  compile e info asm_filename src_filename
  = Ok (prologue (cells_size info) ++ epilogue).
Proof.
  intros Hr Hw Hg Hsrc. split; [|split].
  - intros c st Hc. now apply step_other.
  - intros st. now apply scan_unrecognized.
  - unfold compile, malloc. rewrite Hr, Hw. simpl negb. cbv iota.
    change (wrap (STACK_SIZE * sizeof_size_t)) with 4096. rewrite Hg.
    rewrite scan_unrecognized by exact Hsrc. reflexivity.
Qed.

Lemma unrecognized_bytes_inert_witness :
  compile (demo_env "no symbols here") demo_info "prog.s" "prog.bf"
  = Ok (prologue 4096 ++ epilogue).
Proof.
  apply (unrecognized_bytes_inert (demo_env "no symbols here") demo_info
           "prog.s" "prog.bf" (list_ascii_of_string "no symbols here")).
  - reflexivity.
  - reflexivity.
  - reflexivity.
  - repeat constructor.
Defined.

(** ** Determinism *)

Lemma step_agree e1 e2 c s1 s2 s1' s2' :
  Inv s1 -> Inv s2 -> agree s1 s2 ->
  step e1 c s1 = Ok s1' -> step e2 c s2 = Ok s2' -> agree s1' s2'.
Proof.
  intros HI1 HI2 (Ha & Ht & Hz & Hl & Hk) H1 H2.
  destruct (is_open c) eqn:Ho; [|destruct (is_close c) eqn:Hc].
  - apply is_open_true in Ho. subst c.
    destruct (step_open_Inv _ _ _ HI1 H1) as (_ & Ht1 & Hl1 & Hlk1 & Hk1 & Ha1).
    destruct (step_open_Inv _ _ _ HI2 H2) as (_ & Ht2 & Hl2 & Hlk2 & Hk2 & Ha2).
    destruct (step_open_Ok _ _ _ H1) as (b1 & z1 & Hr1 & _ & E1).
    destruct (step_open_Ok _ _ _ H2) as (b2 & z2 & Hr2 & _ & E2).
    assert (z1 = z2) as Hz'.
    { destruct (room_Ok _ _ _ _ Hr1) as [(_ & -> & Hn1)|(Hf1 & Hg1 & _)];
      destruct (room_Ok _ _ _ _ Hr2) as [(_ & -> & Hn2)|(Hf2 & Hg2 & _)];
        try congruence. }
    assert (0 <= top s1) by apply HI1.
    unfold agree. rewrite Ha1, Ha2, Ht1, Ht2, Hl1, Hl2, Ha, Ht, Hl.
    repeat split; auto.
    + subst s1' s2'. simpl. exact Hz'.
    + replace (Z.to_nat (top s2 + 1)) with (S (Z.to_nat (top s2))) by lia.
      rewrite Ht, Hl1, Hl in Hlk1. rewrite Hl2 in Hlk2.
      rewrite (take_S_r _ _ _ Hlk1), (take_S_r _ _ _ Hlk2).
      rewrite Ht in Hk1. rewrite Hk1, Hk2. rewrite Ht in Hk. now rewrite Hk.
  - apply is_close_true in Hc. subst c.
    destruct (step_close_Inv _ _ _ HI1 H1)
      as (_ & Hp1 & Ht1 & Hl1 & Hs1 & Hz1 & l1 & Hlk1 & Ha1).
    destruct (step_close_Inv _ _ _ HI2 H2)
      as (_ & Hp2 & Ht2 & Hl2 & Hs2 & Hz2 & l2 & Hlk2 & Ha2).
    rewrite Ht in Hk, Hlk1.
    assert (l1 = l2) as ->.
    { assert (Z.to_nat (top s2 - 1) < Z.to_nat (top s2))%nat as Hlt by lia.
      rewrite (lookup_take_eq _ _ _ _ Hlt Hk) in Hlk1. congruence. }
    unfold agree. rewrite Ha1, Ha2, Ht1, Ht2, Hl1, Hl2, Hs1, Hs2, Hz1, Hz2, Ha, Ht.
    repeat split; auto.
    apply (take_le_eq _ (Z.to_nat (top s2))); [lia|exact Hk].
  - destruct (step_plain c Ho Hc) as [lines Hlines].
    rewrite Hlines in H1, H2. injection H1 as <-. injection H2 as <-.
    unfold agree, fprintf; simpl. rewrite Ha. auto.
Qed.

Lemma scan_agree e1 e2 src : forall s1 s2 s1' s2',
  Inv s1 -> Inv s2 -> agree s1 s2 ->
  scan e1 src s1 = Ok s1' -> scan e2 src s2 = Ok s2' -> agree s1' s2'.
Proof.
  induction src as [|c src IH]; intros s1 s2 s1' s2' HI1 HI2 Ha H1 H2.
  - injection H1 as <-. injection H2 as <-. exact Ha.
  - rewrite scan_cons in H1, H2.
    destruct (step e1 c s1) as [t1| |] eqn:E1; try discriminate.
    destruct (step e2 c s2) as [t2| |] eqn:E2; try discriminate.
    simpl in H1, H2.
    apply (IH t1 t2); auto.
    + exact (proj1 (step_Inv _ _ _ _ HI1 E1)).
    + exact (proj1 (step_Inv _ _ _ _ HI2 E2)).
    + exact (step_agree e1 e2 c s1 s2 t1 t2 HI1 HI2 Ha E1 E2).
Qed.

Lemma compile_Ok e info asm_filename src_filename out :
  compile e info asm_filename src_filename = Ok out ->
  exists src blk st,
    fs_read e src_filename = Some src /\ fs_write e asm_filename = true /\
    malloc e (wrap (STACK_SIZE * sizeof_size_t)) = Some blk /\
    scan e src (start (cells_size info) blk) = Ok st /\
    out = as_ st ++ epilogue.
Proof.
  unfold compile.
  destruct (fs_read e src_filename) as [src|]; [|discriminate].
  destruct (fs_write e asm_filename); [|discriminate]. simpl negb. cbv iota.
  destruct (malloc e (wrap (STACK_SIZE * sizeof_size_t))) as [blk|]; [|discriminate].
  destruct (scan e src (start (cells_size info) blk)) as [st| |] eqn:Hs;
    try discriminate.
  intros [= <-]. exists src, blk, st. auto.
Qed.

(** C9.  Two translations of the same source text with the same cell-array
    size write the same assembly text, whatever the file names, whatever
    the allocator decides along the way and whatever the fresh storage of
    the loop stack contains. *)
Theorem compile_deterministic (e1 e2 : env) (info1 info2 : info_t)
    (asm1 asm2 src1 src2 : string) (out1 out2 : list string) :
  fs_read e1 src1 = fs_read e2 src2 ->
  cells_size info1 = cells_size info2 ->
  compile e1 info1 asm1 src1 = Ok out1 ->
  compile e2 info2 asm2 src2 = Ok out2 ->
  out1 = out2.
Proof.
  intros Hsrc Hcells H1 H2.
  destruct (compile_Ok _ _ _ _ _ H1) as (s1 & b1 & t1 & Hr1 & _ & Hm1 & Hs1 & ->).
  destruct (compile_Ok _ _ _ _ _ H2) as (s2 & b2 & t2 & Hr2 & _ & Hm2 & Hs2 & ->).
  assert (s1 = s2) as -> by congruence.
  destruct (start_Inv _ (cells_size info1) _ Hm1) as [HI1 _].
  destruct (start_Inv _ (cells_size info2) _ Hm2) as [HI2 _].
  assert (agree (start (cells_size info1) b1) (start (cells_size info2) b2)) as Ha0.
  { unfold agree, start; cbn [as_ top stack_size loop stack].
    rewrite Hcells. repeat split. }
  destruct (scan_agree e1 e2 s2 _ _ t1 t2 HI1 HI2 Ha0 Hs1 Hs2) as (Ha & _).
  now rewrite Ha.
Qed.

Lemma compile_deterministic_witness :
  exists out,
    compile (demo_env "+[-[>,.<]]") demo_info "prog.s" "prog.bf" = Ok out /\
    compile (other_env "+[-[>,.<]]") demo_info "copy.s" "copy.bf" = Ok out.
Proof.
  assert (exists o, compile (demo_env "+[-[>,.<]]") demo_info "prog.s" "prog.bf" = Ok o)
    as [o1 H1] by (vm_compute; eexists; reflexivity).
  assert (exists o, compile (other_env "+[-[>,.<]]") demo_info "copy.s" "copy.bf" = Ok o)
    as [o2 H2] by (vm_compute; eexists; reflexivity).
  exists o1. split; [exact H1|]. rewrite H2. f_equal. symmetry.
  apply (compile_deterministic (demo_env "+[-[>,.<]]") (other_env "+[-[>,.<]]")
           demo_info demo_info "prog.s" "copy.s" "prog.bf" "copy.bf" o1 o2).
  - vm_compute. reflexivity.
  - reflexivity.
  - exact H1.
  - exact H2.
Defined.

(** ** Labels *)

Lemma allocated_spec e src : forall st,
  Inv st ->
  exists k : nat,
    allocated e src st = map (fun i => wrap (loop st + Z.of_nat i)) (seq 1 k) /\
    Z.of_nat k <= opens src /\
    (forall st', scan e src st = Ok st' -> Z.of_nat k = opens src).
Proof.
  induction src as [|c src IH]; intros st HI.
  - exists 0%nat. repeat split; auto. rewrite opens_nil. lia.
  - cbn [allocated]. rewrite opens_cons.
    destruct (step e c st) as [st1| |] eqn:H1.
    + destruct (step_Inv _ _ _ _ HI H1) as (HI1 & _ & Hl1).
      destruct (IH st1 HI1) as (k & Hk & Hle & Hall).
      destruct (is_open c) eqn:Ho.
      * exists (S k). split; [|split].
        -- cbn [seq map app]. f_equal; [now rewrite Hl1|].
           rewrite Hk, <- (seq_shift k 1), map_map. apply map_ext. intros i.
           rewrite Hl1. unfold wrap. rewrite Zplus_mod_idemp_l. f_equal. lia.
        -- lia.
        -- intros st' Hs. rewrite scan_cons, H1 in Hs. simpl in Hs.
           specialize (Hall _ Hs). lia.
      * exists k. split; [|split].
        -- cbn [app]. rewrite Hk. apply map_ext. intros i. rewrite Hl1.
           rewrite Z.add_0_r, (wrap_small (loop st)) by apply HI. reflexivity.
        -- lia.
        -- intros st' Hs. rewrite scan_cons, H1 in Hs. simpl in Hs.
           specialize (Hall _ Hs). lia.
    + exists 0%nat. repeat split; auto.
      * pose proof (opens_nonneg src). destruct (is_open c); lia.
      * intros st' Hs. rewrite scan_cons, H1 in Hs. discriminate.
    + exists 0%nat. repeat split; auto.
      * pose proof (opens_nonneg src). destruct (is_open c); lia.
      * intros st' Hs. rewrite scan_cons, H1 in Hs. discriminate.
Qed.

Lemma seq_sorted (a k : nat) : StronglySorted Z.lt (map Z.of_nat (seq a k)).
Proof.
  revert a. induction k as [|k IH]; intros a; cbn [seq map]; constructor.
  - apply IH.
  - apply List.Forall_forall. intros x Hx. apply in_map_iff in Hx as (i & <- & Hi).
    apply in_seq in Hi. lia.
Qed.

Lemma seq_positive (k : nat) : Forall (fun l => 0 < l) (map Z.of_nat (seq 1 k)).
Proof.
  apply List.Forall_forall. intros x Hx. apply in_map_iff in Hx as (i & <- & Hi).
  apply in_seq in Hi. lia.
Qed.

Lemma seq_NoDup_Z (k : nat) : List.NoDup (map Z.of_nat (seq 1 k)).
Proof.
  apply NoDup_ListNoDup.
  apply (NoDup_fmap_2 Z.of_nat), NoDup_seq.
Qed.

(** C3, as amended.  In the translation of a source with fewer than [2^32]
    ['['] symbols, the labels allocated are 1, 2, 3, ... in the order of
    the source positions of their ['[']: strictly increasing, positive and
    never reused; when the scan completes there is one for every ['['].
    This holds for every source and every allocator, hence also when more
    loops are open at once than the initial capacity holds and the loop
    stack grows. *)
Theorem labels_increasing (e : env) (cells : Z) (blk : list Z) (src : list ascii) :
  malloc e (wrap (STACK_SIZE * sizeof_size_t)) = Some blk ->
  opens src < 2 ^ 32 ->
  exists k : nat,
    allocated e src (start cells blk) = map Z.of_nat (seq 1 k) /\
    (forall st, scan e src (start cells blk) = Ok st -> Z.of_nat k = opens src) /\
    StronglySorted Z.lt (allocated e src (start cells blk)) /\
    Forall (fun l => 0 < l) (allocated e src (start cells blk)) /\
    List.NoDup (allocated e src (start cells blk)).
Proof.
  intros Hm Hlt. destruct (start_Inv e cells blk Hm) as [HI _].
  destruct (allocated_spec e src _ HI) as (k & Hk & Hle & Hall).
  assert (allocated e src (start cells blk) = map Z.of_nat (seq 1 k)) as E.
  { rewrite Hk. apply map_ext_in. intros i Hi. apply in_seq in Hi.
    simpl loop. apply wrap_small. lia. }
  exists k. rewrite E. repeat split.
  - exact Hall.
  - apply seq_sorted.
  - apply seq_positive.
  - apply seq_NoDup_Z.
Qed.


(** The scan of [deep_src] completes, and the loop stack has grown. *)
Lemma deep_src_grows :
  match scan (demo_env "") deep_src demo_start with
  | Ok st => (stack_size st =? 1126) && (top st =? 0) && (loop st =? 1100)
  | _ => false
  end = true.
Proof. vm_compute. reflexivity. Qed.

Lemma labels_increasing_witness :
  exists k : nat,
    allocated (demo_env "") deep_src demo_start = map Z.of_nat (seq 1 k) /\
    (forall st, scan (demo_env "") deep_src demo_start = Ok st ->
                Z.of_nat k = opens deep_src) /\
    StronglySorted Z.lt (allocated (demo_env "") deep_src demo_start) /\
    Forall (fun l => 0 < l) (allocated (demo_env "") deep_src demo_start) /\
    List.NoDup (allocated (demo_env "") deep_src demo_start).
Proof.
  apply (labels_increasing (demo_env "") 4096 (fresh (demo_env "") 0 1024) deep_src).
  - reflexivity.
  - vm_compute. reflexivity.
Defined.

Lemma two_32_Z : Z.of_nat two_32 = 2 ^ 32.
Proof. unfold two_32. apply Z2Nat.id. lia. Qed.

Opaque two_32.

(** Loops with empty bodies use the bottom slot of the stack over and over,
    and the label counter goes on counting modulo [2^32]. *)
Lemma allocated_empty_loops e n : forall st,
  Inv st -> top st = 0 -> top st <> stack_size st ->
  0 < Z.of_nat (length (stack st)) ->
  allocated e (empty_loops n) st
  = map (fun i => wrap (loop st + Z.of_nat i)) (seq 1 n).
Proof.
  induction n as [|n IH]; intros st HI Ht Hne Hlen; [reflexivity|].
  assert (step e "[" st = Ok (pushed st (stack st) (stack_size st))) as H1.
  { rewrite step_open_eq. unfold room.
    destruct (Z.eqb_spec (top st) (stack_size st)) as [|_]; [contradiction|].
    destruct (Z.ltb_spec (top st) (Z.of_nat (length (stack st)))); [reflexivity|lia]. }
  set (st1 := pushed st (stack st) (stack_size st)) in *.
  assert (step e "]" st1 = Ok (popped st1 (wrap (loop st + 1)))) as H2.
  { rewrite step_close_eq. unfold st1, pushed; cbn [top stack].
    rewrite Ht. change (wrap (wrap (0 + 1) - 1)) with 0.
    change (Z.to_nat 0) with 0%nat.
    rewrite list_lookup_insert_eq by lia. reflexivity. }
  set (st2 := popped st1 (wrap (loop st + 1))) in *.
  assert (Inv st2 /\ top st2 = 0 /\ stack_size st2 = stack_size st /\
          length (stack st2) = length (stack st) /\
          loop st2 = wrap (loop st + 1)) as (HI2 & Ht2 & Hz2 & Hl2 & Hc2).
  { unfold st2, st1, popped, pushed, Inv; cbn [top stack stack_size loop].
    rewrite Ht, length_insert. change (wrap (wrap (0 + 1) - 1)) with 0.
    pose proof (wrap_range (loop st + 1)). destruct HI as (_ & ? & _).
    repeat split; lia. }
  cbn [empty_loops allocated]. rewrite H1. cbn [is_open Ascii.eqb]. 
  change (is_open "[") with true. change (is_open "]") with false.
  cbn iota. rewrite H2. cbn [app seq map].
  f_equal.
  rewrite (IH st2 HI2 Ht2) by (rewrite ?Hz2, ?Hl2; congruence || lia).
  rewrite <- (seq_shift n 1), map_map. apply map_ext. intros i.
  rewrite Hc2. unfold wrap. rewrite Zplus_mod_idemp_l. f_equal. lia.
Qed.

Lemma seq_from_1 (n : nat) : (0 < n)%nat -> seq 1 n = 1%nat :: seq 2 (n - 1).
Proof.
  destruct n as [|n]; [lia|]. intros _.
  replace (S n - 1)%nat with n by lia. reflexivity.
Qed.

Lemma demo_start_Inv : Inv demo_start /\ Cap demo_start.
Proof.
  split.
  - apply (start_Inv (demo_env "") 4096 _ (demo_malloc "")).
  - apply (start_Cap (demo_env "") 4096 _ (demo_malloc "")).
Qed.

(** C3, as stated, fails: after [2^32] loops the label counter, a
    [size_t], is back at 0.  The label of the last loop is 0, which is not
    positive and not larger than the labels before it. *)
Lemma label_counter_wraps :
  In 0 (allocated (demo_env "") (empty_loops two_32) demo_start) /\
  ~ Forall (fun l => 0 < l) (allocated (demo_env "") (empty_loops two_32) demo_start) /\
  ~ StronglySorted Z.lt (allocated (demo_env "") (empty_loops two_32) demo_start).
Proof.
  destruct demo_start_Inv as [HI HC].
  assert (allocated (demo_env "") (empty_loops two_32) demo_start
          = map (fun i => wrap (0 + Z.of_nat i)) (seq 1 two_32)) as E.
  { apply (allocated_empty_loops (demo_env "") two_32 demo_start HI).
    - reflexivity.
    - discriminate.
    - destruct HC as [_ HC]. rewrite HC. reflexivity. }
  rewrite E. clear E.
  pose proof two_32_Z as HZ.
  assert (In 0 (map (fun i => wrap (0 + Z.of_nat i)) (seq 2 (two_32 - 1)))) as Hin.
  { apply in_map_iff. exists two_32. split.
    - rewrite HZ. reflexivity.
    - apply in_seq. lia. }
  rewrite (seq_from_1 two_32) by lia. cbn [map]. change (wrap (0 + Z.of_nat 1)) with 1.
  pose proof (in_cons 1 0 _ Hin) as Hin'.
  split; [exact Hin'|]. split.
  - intros H. rewrite List.Forall_forall in H.
    specialize (H 0 Hin'). lia.
  - intros H. apply StronglySorted_inv in H as [_ H].
    rewrite List.Forall_forall in H. specialize (H 0 Hin). lia.
Qed.

(** ** The loop stack during a scan *)

Lemma no_underflow_prefix p s d : no_underflow (p ++ s) d -> no_underflow p d.
Proof.
  intros H q r Heq. apply (H q (r ++ s)). rewrite Heq. now rewrite <- app_assoc.
Qed.

(** A scan that returns has never popped below the depth at which it
    began. *)
Lemma scan_Ok_no_underflow e p st st' :
  Inv st -> scan e p st = Ok st' -> no_underflow p (top st).
Proof.
  intros HI H q r Heq. subst p.
  destruct (scan_prefix_Ok _ _ _ _ _ H) as (st1 & H1 & _).
  destruct (scan_Inv _ _ _ _ HI H1) as ((Ht & _) & Ht1 & _). lia.
Qed.

Lemma scan_Cap e p st st' :
  alloc_sane e -> Inv st -> Cap st -> scan e p st = Ok st' -> Cap st'.
Proof.
  intros Hsane HI HC H.
  pose proof (scan_sane e p st Hsane HI HC (scan_Ok_no_underflow _ _ _ _ HI H)) as Hs.
  rewrite H in Hs. apply Hs.
Qed.

(** The text only grows. *)
Lemma scan_as_prefix e src : forall st st',
  Inv st -> scan e src st = Ok st' -> exists body, as_ st' = as_ st ++ body.
Proof.
  induction src as [|c src IH]; intros st st' HI H.
  - injection H as <-. exists []. now rewrite app_nil_r.
  - rewrite scan_cons in H.
    destruct (step e c st) as [st1| |] eqn:H1; try discriminate. cbn in H.
    destruct (IH _ _ (proj1 (step_Inv _ _ _ _ HI H1)) H) as [body Hb].
    assert (exists lines, as_ st1 = as_ st ++ lines) as [lines Hl].
    { destruct (is_open c) eqn:Ho; [|destruct (is_close c) eqn:Hc].
      - apply is_open_true in Ho. subst c.
        destruct (step_open_Inv _ _ _ HI H1) as (_ & _ & _ & _ & _ & Ha). eauto.
      - apply is_close_true in Hc. subst c.
        destruct (step_close_Inv _ _ _ HI H1) as (_ & _ & _ & _ & _ & _ & l & _ & Ha).
        eauto.
      - destruct (step_plain c Ho Hc) as [lines Hl]. rewrite Hl in H1.
        injection H1 as <-. eauto. }
    exists (lines ++ body). rewrite Hb, Hl. now rewrite app_assoc.
Qed.

Lemma nesting_ok_sound src : forall depth cap,
  nesting_ok src depth cap = true -> 0 <= depth <= cap ->
  nesting_within src depth cap.
Proof.
  induction src as [|c src IH]; intros depth cap H Hd p s Heq.
  - symmetry in Heq. apply app_eq_nil in Heq as [-> _].
    rewrite closes_nil, opens_nil. lia.
  - cbn [nesting_ok] in H. apply andb_prop in H as [H H3].
    apply andb_prop in H as [H1 H2]. apply Z.leb_le in H1, H2.
    destruct p as [|c' p]; [rewrite closes_nil, opens_nil; lia|].
    injection Heq as <- Heq.
    specialize (IH _ cap H3 (conj H1 H2) p s Heq).
    rewrite closes_cons, opens_cons. lia.
Qed.

Lemma nesting_within_tail c src depth cap :
  nesting_within (c :: src) depth cap ->
  0 <= depth + (if is_open c then 1 else 0) - (if is_close c then 1 else 0) <= cap /\
  nesting_within src
    (depth + (if is_open c then 1 else 0) - (if is_close c then 1 else 0)) cap.
Proof.
  intros H. split.
  - specialize (H [c] src eq_refl).
    rewrite opens_cons, closes_cons, opens_nil, closes_nil in H. lia.
  - intros p s Heq. specialize (H (c :: p) s). rewrite Heq in H.
    specialize (H eq_refl). rewrite opens_cons, closes_cons in H. lia.
Qed.

Lemma nesting_within_no_underflow src depth cap :
  nesting_within src depth cap -> no_underflow src depth.
Proof. intros H p s Heq. specialize (H p s Heq). lia. Qed.

(** With memory to spare, a step that keeps the depth between 0 and [D]
    returns. *)
Lemma step_total e D c st :
  grants_upto e (stack_bytes D) -> stack_bytes D <= PTRDIFF_MAX ->
  Inv st -> Cap st ->
  0 <= top st + (if is_open c then 1 else 0) - (if is_close c then 1 else 0) <= D ->
  exists st', step e c st = Ok st' /\ Inv st' /\ Cap st'.
Proof.
  intros Hg Hb HI HC Hd.
  destruct (is_open c) eqn:Ho; [|destruct (is_close c) eqn:Hc].
  - apply is_open_true in Ho. subst c. cbn in Hd.
    destruct HC as [Hin Hlen].
    assert (exists blk size, room e st = Ok (blk, size) /\
              top st < Z.of_nat (length blk) /\ Z.of_nat (length blk) = size /\
              In size capacities) as (blk & size & Hr & Hlt & Hl & Hs).
    { unfold room. destruct (Z.eqb_spec (top st) (stack_size st)) as [Heq|Hne].
      - destruct (capacity_growth _ Hin) as (c' & Hgrow & Hc' & Hinc & Hsz & Hcap).
        pose proof (capacities_positive _ Hin) as Hpos. unfold STACK_SIZE in Hpos.
        assert (sizeof_size_t * c' <= stack_bytes D) as Hle.
        { unfold stack_bytes, sizeof_size_t. subst c'.
          assert (11 * stack_size st / 10 <= 11 * D / 10)
            by (apply Z.div_le_mono; lia). lia. }
        unfold resize. rewrite Hgrow.
        unfold sizeof_size_t, SIZE_MAX in *.
        rewrite wrap_small by lia.
        destruct (realloc e (stack st) (4 * c')) as [blk|] eqn:Hre.
        + exists blk, c'. split; [reflexivity|].
          apply realloc_length in Hre. unfold sizeof_size_t in Hre.
          replace (4 * c' / 4) with c' in Hre by (rewrite Z.mul_comm, Z.div_mul; lia).
          rewrite Hre, Z2Nat.id by lia.
          split; [lia|]. split; [reflexivity|]. apply Hcap. lia.
        + unfold realloc in Hre. rewrite Hg in Hre by lia. discriminate Hre.
      - exists (stack st), (stack_size st). split; [reflexivity|].
        destruct HI as (Ht & _). split; [lia|]. split; [exact Hlen|exact Hin]. }
    exists (pushed st blk size).
    assert (step e "[" st = Ok (pushed st blk size)) as Hstep.
    { rewrite step_open_eq, Hr.
      destruct (Z.ltb_spec (top st) (Z.of_nat (length blk))); [reflexivity|lia]. }
    split; [exact Hstep|]. split; [exact (proj1 (step_Inv _ _ _ _ HI Hstep))|].
    unfold Cap, pushed; cbn [stack_size stack]. rewrite length_insert. auto.
  - apply is_close_true in Hc. subst c. cbn in Hd.
    destruct (step_close_sane e st HI HC) as (l & _ & Hs & HI' & HC'); [lia|].
    exists (popped st l). auto.
  - destruct (step_plain c Ho Hc) as [lines Hl]. exists (fprintf st lines).
    split; [apply Hl|]. split; [apply HI|apply HC].
Qed.

(** With memory to spare, the scan of source whose nesting stays between
    0 and [D] returns. *)
Lemma scan_total e D src : forall st,
  grants_upto e (stack_bytes D) -> stack_bytes D <= PTRDIFF_MAX ->
  Inv st -> Cap st -> nesting_within src (top st) D ->
  exists st', scan e src st = Ok st' /\ Inv st' /\ Cap st'.
Proof.
  induction src as [|c src IH]; intros st Hg Hb HI HC Hn; [exists st; auto|].
  destruct (nesting_within_tail _ _ _ _ Hn) as [Hd Hn'].
  destruct (step_total e D c st Hg Hb HI HC Hd) as (st1 & H1 & HI1 & HC1).
  destruct (step_Inv _ _ _ _ HI H1) as (_ & Ht1 & _).
  destruct (IH st1 Hg Hb HI1 HC1) as (st' & Hs & HI' & HC').
  - rewrite Ht1. exact Hn'.
  - exists st'. rewrite scan_cons, H1. cbn [mbind outcome_bind]. auto.
Qed.

(** A scan that returns has returned from every step on the way. *)
Lemma scan_Ok_step e p c s st st' :
  scan e (p ++ c :: s) st = Ok st' ->
  exists st1 st2, scan e p st = Ok st1 /\ step e c st1 = Ok st2 /\
                  scan e s st2 = Ok st'.
Proof.
  intros H. destruct (scan_prefix_Ok _ _ _ _ _ H) as (st1 & H1 & H2).
  rewrite scan_cons in H2.
  destruct (step e c st1) as [st2| |] eqn:E; try discriminate H2.
  exists st1, st2. auto.
Qed.

(** C4.  In the scan of well-formed source the loop stack is empty before
    the first symbol.  With memory to spare (the allocator grants what a
    stack for the deepest nesting of the source takes) the scan returns
    from every symbol and reaches the end: after every prefix the depth of
    the stack is the number of ['['] minus the number of [']'] in that
    prefix, each step changes it by one up on ['['], one down on [']'] and
    not at all on any other byte, the [']'] that closes a loop pops the
    label that the ['['] of that loop pushed, and after the last symbol
    the stack is empty again.  Whatever the allocator does, the same holds
    of every state that the scan reaches: the push stores the new label at
    the old depth above an unchanged stack, and bytes other than ['[']
    leave the stack as it is. *)
Theorem stack_discipline (e : env) (cells : Z) (blk : list Z) (src : list ascii) :
  malloc e (wrap (STACK_SIZE * sizeof_size_t)) = Some blk ->
  balanced src ->
  top (start cells blk) = 0 /\
  (forall D, nesting_within src 0 D -> stack_bytes D <= PTRDIFF_MAX ->
     grants_upto e (stack_bytes D) ->
     (exists st, scan e src (start cells blk) = Ok st /\ top st = 0) /\
     (forall p c s, src = p ++ c :: s ->
        exists st st',
          scan e p (start cells blk) = Ok st /\ step e c st = Ok st' /\
          top st = opens p - closes p /\
          top st' = top st + (if is_open c then 1 else 0)
                           - (if is_close c then 1 else 0) /\
          (is_open c = true ->
             loop st' = wrap (loop st + 1) /\
             stack st' !! Z.to_nat (top st) = Some (loop st') /\
             take (Z.to_nat (top st)) (stack st')
             = take (Z.to_nat (top st)) (stack st)) /\
          (is_open c = false -> stack st' = stack st)) /\
     (forall p b s, src = p ++ "["%char :: b ++ "]"%char :: s -> balanced b ->
        exists st st1 st2,
          scan e p (start cells blk) = Ok st /\ step e "[" st = Ok st1 /\
          scan e b st1 = Ok st2 /\
          step e "]" st2 = Ok (popped st2 (loop st1)) /\
          top (popped st2 (loop st1)) = top st)) /\
  (forall p s st, src = p ++ s -> scan e p (start cells blk) = Ok st ->
     top st = opens p - closes p) /\
  (forall p c s st st', src = p ++ c :: s ->
     scan e p (start cells blk) = Ok st -> step e c st = Ok st' ->
     top st' = top st + (if is_open c then 1 else 0) - (if is_close c then 1 else 0) /\
     (is_open c = true ->
        stack st' !! Z.to_nat (top st) = Some (loop st') /\
        take (Z.to_nat (top st)) (stack st') = take (Z.to_nat (top st)) (stack st)) /\
     (is_open c = false -> stack st' = stack st)) /\
  (forall p b s st st1 st2, src = p ++ "["%char :: b ++ "]"%char :: s -> balanced b ->
     scan e p (start cells blk) = Ok st -> step e "[" st = Ok st1 ->
     scan e b st1 = Ok st2 ->
     step e "]" st2 = Ok (popped st2 (loop st1)) /\
     top (popped st2 (loop st1)) = top st) /\
  (forall st, scan e src (start cells blk) = Ok st -> top st = 0).
Proof.
  intros Hm Hbal. destruct (start_Inv e cells blk Hm) as [HI0 _].
  pose proof (start_Cap e cells blk Hm) as HC0.
  assert (forall p c st st',
            scan e p (start cells blk) = Ok st -> step e c st = Ok st' ->
            top st' = top st + (if is_open c then 1 else 0)
                             - (if is_close c then 1 else 0) /\
            (is_open c = true ->
               loop st' = wrap (loop st + 1) /\
               stack st' !! Z.to_nat (top st) = Some (loop st') /\
               take (Z.to_nat (top st)) (stack st')
               = take (Z.to_nat (top st)) (stack st)) /\
            (is_open c = false -> stack st' = stack st)) as Hstep.
  { intros p c st st' Hp Hs.
    destruct (scan_Inv _ _ _ _ HI0 Hp) as (HI & _).
    split; [apply (step_Inv _ _ _ _ HI Hs)|]. split.
    - intros Ho. apply is_open_true in Ho. subst c.
      destruct (step_open_Inv _ _ _ HI Hs) as (_ & _ & Hlp & Hl & Htk & _). auto.
    - intros Ho. destruct (is_close c) eqn:Hc.
      + apply is_close_true in Hc. subst c.
        destruct (step_close_Inv _ _ _ HI Hs) as (_ & _ & _ & _ & Hst & _). exact Hst.
      + destruct (step_plain_Inv _ _ _ _ Ho Hc Hs) as (_ & _ & Hst & _). exact Hst. }
  assert (forall p st, scan e p (start cells blk) = Ok st ->
                       top st = opens p - closes p) as Hdepth.
  { intros p st Hp. destruct (scan_Inv _ _ _ _ HI0 Hp) as (_ & Ht & _).
    rewrite Ht. cbn [start top]. lia. }
  assert (forall st, scan e src (start cells blk) = Ok st -> top st = 0) as Hend.
  { intros st Hs. destruct (scan_balanced e src Hbal _ _ HI0 Hs) as [Ht _].
    rewrite Ht. reflexivity. }
  split; [reflexivity|]. split; [|split; [|split; [|split]]].
  - intros D Hn Hb Hg.
    destruct (scan_total e D src (start cells blk) Hg Hb HI0 HC0 Hn) as (stf & Hf & _).
    split; [exists stf; split; [exact Hf|exact (Hend _ Hf)]|]. split.
    + intros p c s ->.
      destruct (scan_Ok_step _ _ _ _ _ _ Hf) as (st & st' & Hp & Hs & _).
      exists st, st'. split; [exact Hp|]. split; [exact Hs|].
      split; [exact (Hdepth _ _ Hp)|]. exact (Hstep _ _ _ _ Hp Hs).
    + intros p b s -> Hb'.
      destruct (scan_Ok_step _ _ _ _ _ _ Hf) as (st & st1 & Hp & H1 & Hrest).
      destruct (scan_prefix_Ok _ _ _ _ _ Hrest) as (st2 & H2 & _).
      destruct (scan_Inv _ _ _ _ HI0 Hp) as (HI & _).
      exists st, st1, st2. split; [exact Hp|]. split; [exact H1|]. split; [exact H2|].
      exact (scan_loop_match e b st st1 st2 Hb' HI H1 H2).
  - intros p s st _ Hp. exact (Hdepth _ _ Hp).
  - intros p c s st st' _ Hp Hs.
    destruct (Hstep _ _ _ _ Hp Hs) as (H1 & H2 & H3).
    split; [exact H1|]. split; [|exact H3].
    intros Ho. destruct (H2 Ho) as (_ & ? & ?). auto.
  - intros p b s st st1 st2 _ Hb Hp H1 H2.
    destruct (scan_Inv _ _ _ _ HI0 Hp) as (HI & _).
    exact (scan_loop_match e b st st1 st2 Hb HI H1 H2).
  - exact Hend.
Qed.

Lemma nested_balanced : balanced nested_src.
Proof.
  apply bal_other; [reflexivity|reflexivity|].
  apply (bal_loop (list_ascii_of_string "-[>,.<]") []); [|apply bal_nil].
  apply bal_other; [reflexivity|reflexivity|].
  apply (bal_loop (list_ascii_of_string ">,.<") []); [|apply bal_nil].
  repeat (apply bal_other; [reflexivity|reflexivity|]). apply bal_nil.
Qed.

Lemma nest_balanced (n : nat) :
  balanced (replicate n "["%char ++ replicate n "]"%char).
Proof.
  induction n as [|n IH]; [apply bal_nil|].
  rewrite (replicate_S_end n "]"%char). cbn [replicate app].
  rewrite app_assoc. apply bal_loop; [exact IH|apply bal_nil].
Qed.

Lemma demo_grants text limit : limit <= PTRDIFF_MAX -> grants_upto (demo_env text) limit.
Proof. intros H bytes Hb. cbn [demo_env heap_grants]. apply Z.leb_le. lia. Qed.

Lemma stack_discipline_witness :
  (exists st, scan (demo_env "") deep_src demo_start = Ok st /\ top st = 0) /\
  (forall p c s, deep_src = p ++ c :: s ->
     exists st st',
       scan (demo_env "") p demo_start = Ok st /\ step (demo_env "") c st = Ok st' /\
       top st = opens p - closes p /\
       top st' = top st + (if is_open c then 1 else 0)
                        - (if is_close c then 1 else 0) /\
       (is_open c = true ->
          loop st' = wrap (loop st + 1) /\
          stack st' !! Z.to_nat (top st) = Some (loop st') /\
          take (Z.to_nat (top st)) (stack st')
          = take (Z.to_nat (top st)) (stack st)) /\
       (is_open c = false -> stack st' = stack st)).
Proof.
  destruct (stack_discipline (demo_env "") 4096 (fresh (demo_env "") 0 1024) deep_src)
    as (_ & H & _).
  - reflexivity.
  - exact (nest_balanced 1100).
  - destruct (H 1100) as (H1 & H2 & _).
    + apply nesting_ok_sound; [vm_compute; reflexivity|lia].
    + vm_compute. discriminate.
    + apply demo_grants. vm_compute. discriminate.
    + split; [exact H1|exact H2].
Defined.

(** C10.  With an allocator that grants at most [PTRDIFF_MAX] bytes at
    once, the scan of well-formed source never leaves the loop stack: at
    every ['['] the push, after the growth if the stack is full, writes at
    an index below the capacity, which is the length of the block, unless
    the allocator refuses the growth and the compilation stops; at every
    [']'] the stack is not empty and the pop reads inside the block.  No
    run ends in undefined behaviour. *)
Theorem stack_accesses_in_bounds (e : env) (cells : Z) (blk : list Z) (src : list ascii) :
  alloc_sane e ->
  malloc e (wrap (STACK_SIZE * sizeof_size_t)) = Some blk ->
  balanced src ->
  scan e src (start cells blk) <> Undefined /\
  forall p c s st, src = p ++ c :: s -> scan e p (start cells blk) = Ok st ->
    0 <= top st <= stack_size st /\
    Z.of_nat (length (stack st)) = stack_size st /\
    (is_open c = true ->
       match step e c st with
       | Ok st' => top st < stack_size st' /\
                   Z.of_nat (length (stack st')) = stack_size st' /\
                   top st' = top st + 1
       | Fatal d => is_oom d /\ top st = stack_size st
       | Undefined => False
       end) /\
    (is_close c = true ->
       0 < top st /\
       exists l, stack st !! Z.to_nat (top st - 1) = Some l /\
                 step e c st = Ok (popped st l) /\
                 top (popped st l) = top st - 1).
Proof.
  intros Hsane Hm Hbal. destruct (start_Inv e cells blk Hm) as [HI0 _].
  pose proof (start_Cap e cells blk Hm) as HC0.
  pose proof (balanced_no_underflow _ Hbal) as Hnu.
  split.
  - pose proof (scan_sane e src _ Hsane HI0 HC0 Hnu) as Hs.
    intros E. rewrite E in Hs. exact Hs.
  - intros p c s st Hsrc Hp.
    destruct (scan_Inv _ _ _ _ HI0 Hp) as (HI & Ht & _).
    pose proof (scan_Cap _ _ _ _ Hsane HI0 HC0 Hp) as HC.
    cbn [start top] in Ht.
    destruct HI as (Htop & Hlen & Hloop). destruct HC as (Hin & Hcap).
    split; [lia|]. split; [exact Hcap|]. split.
    + intros Ho. apply is_open_true in Ho. subst c.
      pose proof (step_open_sane e st Hsane (conj Htop (conj Hlen Hloop))
                    (conj Hin Hcap)) as Hs.
      destruct (step e "[" st) as [st'| |] eqn:E; auto.
      * destruct Hs as (_ & (_ & Hcap') & Hlt & _).
        destruct (step_open_Inv _ _ _ (conj Htop (conj Hlen Hloop)) E) as (_ & Ht' & _).
        auto.
      * destruct Hs as (Hfull & _ & ->). split; [eexists; reflexivity|exact Hfull].
    + intros Hc.
      assert (0 < top st) as Hpos.
      { specialize (Hnu (p ++ [c]) s). rewrite <- app_assoc in Hnu.
        specialize (Hnu Hsrc).
        rewrite closes_app, opens_app, closes_cons, opens_cons, Hc in Hnu.
        rewrite closes_nil, opens_nil in Hnu.
        destruct (is_open c) eqn:Ho; [apply open_not_close in Ho; congruence|]. lia. }
      split; [exact Hpos|].
      apply is_close_true in Hc. subst c.
      destruct (step_close_sane e st (conj Htop (conj Hlen Hloop)) (conj Hin Hcap) Hpos)
        as (l & Hl & Hs & _).
      exists l. split; [exact Hl|]. split; [exact Hs|].
      unfold popped; cbn [top]. apply wrap_small. lia.
Qed.

Lemma stack_accesses_in_bounds_witness :
  scan (demo_env "") deep_src demo_start <> Undefined.
Proof.
  apply (stack_accesses_in_bounds (demo_env "") 4096 (fresh (demo_env "") 0 1024) deep_src).
  - exact (demo_sane "").
  - reflexivity.
  - exact (nest_balanced 1100).
Defined.

(** ** Growth of the loop stack *)

Lemma scan_Fatal_app e p s st d :
  scan e p st = Fatal d -> scan e (p ++ s) st = Fatal d.
Proof. intros H. rewrite scan_app, H. reflexivity. Qed.

(** C5.  When the loop stack is full at a ['['] (in a state that a scan
    has reached, with an allocator that grants at most [PTRDIFF_MAX]
    bytes), the capacity becomes the product of the old capacity and the
    [double] 1.1 cut to an integer, which is [11/10] of the old capacity
    rounded down and at least the old capacity plus one; the block then
    has that many elements, everything that was on the stack is still
    there in the same order, and the new label lies on top of it.  If the
    allocator refuses the growth, the scan of any source that continues
    from here and the whole compilation end in the out-of-memory
    diagnostic. *)
Theorem stack_growth (e : env) (cells : Z) (blk : list Z) (p : list ascii) (st : state) :
  alloc_sane e ->
  malloc e (wrap (STACK_SIZE * sizeof_size_t)) = Some blk ->
  scan e p (start cells blk) = Ok st ->
  top st = stack_size st ->
  match step e "[" st with
  | Ok st' =>
      grow (stack_size st) = Some (stack_size st') /\
      stack_size st' = 11 * stack_size st / 10 /\
      stack_size st + 1 <= stack_size st' /\
      Z.of_nat (length (stack st')) = stack_size st' /\
      take (Z.to_nat (top st)) (stack st') = take (Z.to_nat (top st)) (stack st) /\
      stack st' !! Z.to_nat (top st) = Some (loop st') /\
      top st' = top st + 1
  | Fatal d =>
      d = oom_diag (11 * stack_size st / 10) /\
      heap_grants e (sizeof_size_t * (11 * stack_size st / 10)) = false /\
      (forall rest, scan e (p ++ "["%char :: rest) (start cells blk) = Fatal d) /\
      (forall info asm_filename src_filename rest,
         cells_size info = cells ->
         fs_read e src_filename = Some (p ++ "["%char :: rest) ->
         fs_write e asm_filename = true ->
         compile e info asm_filename src_filename = Fatal d)
  | Undefined => False
  end.
Proof.
  intros Hsane Hm Hp Hfull. destruct (start_Inv e cells blk Hm) as [HI0 _].
  pose proof (start_Cap e cells blk Hm) as HC0.
  destruct (scan_Inv _ _ _ _ HI0 Hp) as (HI & _).
  pose proof (scan_Cap _ _ _ _ Hsane HI0 HC0 Hp) as HC.
  pose proof (step_open_sane e st Hsane HI HC) as Hs.
  destruct (step e "[" st) as [st'| |] eqn:E; auto.
  - destruct Hs as (_ & (_ & Hcap') & _ & [(Hne & _)|(_ & Hz & Hgt & Hg)]);
      [contradiction|].
    destruct (step_open_Inv _ _ _ HI E) as (_ & Ht' & _ & Hl & Htk & _).
    repeat split; auto.
  - destruct Hs as (_ & Hrefuse & ->).
    assert (forall rest, scan e (p ++ "["%char :: rest) (start cells blk)
                         = Fatal (oom_diag (11 * stack_size st / 10))) as Hscan.
    { intros rest. rewrite scan_app, Hp. cbn [mbind outcome_bind].
      rewrite scan_cons, E. reflexivity. }
    repeat split; auto.
    intros info asm_filename src_filename rest Hcells Hr Hw.
    unfold compile. rewrite Hr, Hw, Hm, Hcells. cbn [negb].
    rewrite Hscan. reflexivity.
Qed.

Lemma stack_growth_witness :
  match scan (demo_env "") full_src demo_start with
  | Ok st =>
      match step (demo_env "") "[" st with
      | Ok st' =>
          grow (stack_size st) = Some (stack_size st') /\
          stack_size st' = 11 * stack_size st / 10 /\
          stack_size st + 1 <= stack_size st' /\
          Z.of_nat (length (stack st')) = stack_size st' /\
          take (Z.to_nat (top st)) (stack st') = take (Z.to_nat (top st)) (stack st) /\
          stack st' !! Z.to_nat (top st) = Some (loop st') /\
          top st' = top st + 1
      | _ => False
      end
  | _ => False
  end.
Proof.
  assert (match scan (demo_env "") full_src demo_start with
          | Ok st => (top st =? stack_size st)
                     && match step (demo_env "") "[" st with
                        | Ok _ => true
                        | _ => false
                        end
          | _ => false
          end = true) as Hfull by (vm_compute; reflexivity).
  destruct (scan (demo_env "") full_src demo_start) as [st| |] eqn:E;
    try discriminate Hfull.
  apply andb_prop in Hfull as [Hfull Hok]. apply Z.eqb_eq in Hfull.
  pose proof (stack_growth (demo_env "") 4096 (fresh (demo_env "") 0 1024) full_src st
                (demo_sane "") (demo_malloc "") E Hfull) as H.
  destruct (step (demo_env "") "[" st) as [st'| |]; try discriminate Hok.
  exact H.
Defined.

(** ** Source that is not well-formed *)

(** C2, as amended.  The translator has no structural check.  As long as
    no [']'] meets an empty loop stack, source is translated as if it were
    well-formed, also when loops are still open at the end of input.  With
    memory to spare the translation returns: the scan ends with as many
    labels on the stack as there are ['['] without a [']'], and the text is
    the prologue, the body and the epilogue.  With an allocator that may
    refuse, the only diagnostics that can occur are the two for lack of
    memory; none is about the structure of the source. *)
Theorem no_structural_check (e : env) (info : info_t)
    (asm_filename src_filename : string) (src : list ascii) :
  fs_read e src_filename = Some src ->
  fs_write e asm_filename = true ->
  (forall D, nesting_within src 0 D -> stack_bytes D <= PTRDIFF_MAX ->
     grants_upto e (stack_bytes D) -> heap_grants e 4096 = true ->
     exists blk st body,
       scan e src (start (cells_size info) blk) = Ok st /\
       top st = opens src - closes src /\
       compile e info asm_filename src_filename
       = Ok (prologue (cells_size info) ++ body ++ epilogue)) /\
  (alloc_sane e -> no_underflow src 0 ->
     match compile e info asm_filename src_filename with
     | Ok out =>
         exists blk st body,
           scan e src (start (cells_size info) blk) = Ok st /\
           top st = opens src - closes src /\
           out = prologue (cells_size info) ++ body ++ epilogue
     | Fatal d => is_oom d \/ d = malloc_diag
     | Undefined => False
     end).
Proof.
  intros Hr Hw. unfold compile. rewrite Hr, Hw. cbn [negb].
  assert (forall blk st,
            malloc e (wrap (STACK_SIZE * sizeof_size_t)) = Some blk ->
            scan e src (start (cells_size info) blk) = Ok st ->
            exists body,
              top st = opens src - closes src /\
              as_ st ++ epilogue = prologue (cells_size info) ++ body ++ epilogue)
    as Hok.
  { intros blk st Hm E. destruct (start_Inv e (cells_size info) blk Hm) as [HI0 _].
    destruct (scan_Inv _ _ _ _ HI0 E) as (_ & Ht & _).
    destruct (scan_as_prefix _ _ _ _ HI0 E) as [body Hb].
    exists body. split.
    - rewrite Ht. cbn [start top]. lia.
    - rewrite Hb. cbn [start as_]. now rewrite <- app_assoc. }
  split.
  - intros D Hn Hb Hg H0.
    assert (malloc e (wrap (STACK_SIZE * sizeof_size_t)) = Some (fresh e 0 1024)) as Hm.
    { unfold malloc. change (wrap (STACK_SIZE * sizeof_size_t)) with 4096.
      rewrite H0. reflexivity. }
    rewrite Hm.
    destruct (start_Inv e (cells_size info) _ Hm) as [HI0 _].
    pose proof (start_Cap e (cells_size info) _ Hm) as HC0.
    destruct (scan_total e D src (start (cells_size info) (fresh e 0 1024))
                Hg Hb HI0 HC0 Hn) as (st & E & _).
    destruct (Hok _ _ Hm E) as (body & Ht & Ha).
    exists (fresh e 0 1024), st, body. split; [exact E|]. split; [exact Ht|].
    rewrite E. cbn [mbind outcome_bind]. now rewrite Ha.
  - intros Hsane Hnu.
    destruct (malloc e (wrap (STACK_SIZE * sizeof_size_t))) as [blk|] eqn:Hm;
      [|right; reflexivity].
    destruct (start_Inv e (cells_size info) blk Hm) as [HI0 _].
    pose proof (start_Cap e (cells_size info) blk Hm) as HC0.
    pose proof (scan_sane e src _ Hsane HI0 HC0 Hnu) as Hs.
    destruct (scan e src (start (cells_size info) blk)) as [st| |] eqn:E;
      cbn [mbind outcome_bind]; auto.
    destruct (Hok _ _ eq_refl E) as (body & Ht & Ha).
    exists blk, st, body. auto.
Qed.

Lemma no_structural_check_witness :
  exists blk st body,
    scan (demo_env "[+") (list_ascii_of_string "[+") (start 4096 blk) = Ok st /\
    top st = opens (list_ascii_of_string "[+") - closes (list_ascii_of_string "[+") /\
    compile (demo_env "[+") demo_info "prog.s" "prog.bf"
    = Ok (prologue 4096 ++ body ++ epilogue).
Proof.
  apply (proj1 (no_structural_check (demo_env "[+") demo_info "prog.s" "prog.bf"
                  (list_ascii_of_string "[+") eq_refl eq_refl) 1).
  - apply nesting_ok_sound; [reflexivity|lia].
  - vm_compute. discriminate.
  - apply demo_grants. vm_compute. discriminate.
  - reflexivity.
Defined.

(** C2, as stated, fails: the source [[], whose loop is never closed, is
    not well-formed, and it is translated without any diagnostic; the text
    jumps to a label [.LE1] that is never defined. *)
Lemma unmatched_open_accepted :
  ~ balanced ["["%char] /\
  compile (demo_env "[") demo_info "prog.s" "prog.bf" =
  Ok (prologue 4096 ++
      [ TAB +:+ "cmp DWORD PTR [edi], 0" +:+ NL;
        TAB +:+ "jz .LE1" +:+ NL;
        ".LB1:" +:+ NL ] ++
      epilogue).
Proof.
  split; [|reflexivity].
  intros H. apply balanced_counts in H as [H _]. discriminate H.
Qed.

(** ** The size of the cell array *)

Lemma LONG_MIN_le_MAX long_bits : 1 <= long_bits -> LONG_MIN long_bits <= LONG_MAX long_bits.
Proof.
  intros H. unfold LONG_MIN, LONG_MAX.
  assert (0 < 2 ^ (long_bits - 1)) by (apply Z.pow_pos_nonneg; lia). lia.
Qed.

Lemma strtol_clamp_range long_bits v rest :
  1 <= long_bits ->
  LONG_MIN long_bits <= fst (fst (strtol_clamp long_bits v rest)) <= LONG_MAX long_bits.
Proof.
  intros H. pose proof (LONG_MIN_le_MAX long_bits H). unfold strtol_clamp.
  destruct (Z.ltb_spec (LONG_MAX long_bits) v); [cbn [fst]; lia|].
  destruct (Z.ltb_spec v (LONG_MIN long_bits)); cbn [fst]; lia.
Qed.

(** [strtol] returns a [long]. *)
Lemma strtol_range long_bits nptr :
  1 <= long_bits ->
  LONG_MIN long_bits <= fst (fst (strtol long_bits nptr)) <= LONG_MAX long_bits.
Proof.
  intros H. unfold strtol.
  destruct (strtol_sign (skip_space nptr)) as [neg s1].
  destruct (strtol_base s1) as [base s2].
  destruct (digits base s2 0 false) as [[v rest] seen].
  destruct seen; cbn [negb].
  - now apply strtol_clamp_range.
  - cbn [fst]. unfold LONG_MIN, LONG_MAX.
    assert (0 < 2 ^ (long_bits - 1)) by (apply Z.pow_pos_nonneg; lia). lia.
Qed.

(** A positive result of [strtol] is at most [LONG_MAX]. *)
Lemma strtol_le_MAX long_bits nptr :
  0 < fst (fst (strtol long_bits nptr)) ->
  fst (fst (strtol long_bits nptr)) <= LONG_MAX long_bits.
Proof.
  unfold strtol.
  destruct (strtol_sign (skip_space nptr)) as [neg s1].
  destruct (strtol_base s1) as [base s2].
  destruct (digits base s2 0 false) as [[v rest] seen].
  destruct seen; cbn [negb]; [|cbn [fst]; lia].
  unfold strtol_clamp.
  destruct (Z.ltb_spec (LONG_MAX long_bits) (if neg then - v else v)); [cbn [fst]; lia|].
  destruct (Z.ltb_spec (if neg then - v else v) (LONG_MIN long_bits)); cbn [fst]; [|lia].
  unfold LONG_MIN. pose proof (Z.pow_nonneg 2 (long_bits - 1)). lia.
Qed.

(** The body of the option loop, option by option. *)
Lemma setup_options_step long_bits info c optarg rest :
  setup_options long_bits info ((c, optarg) :: rest) =
  match option_effect long_bits info c optarg with
  | Some info' => setup_options long_bits info' rest
  | None => (false, info)
  end.
Proof.
  destruct c as [[] [] [] [] [] [] [] []]; cbn [setup_options option_effect];
    try reflexivity.
  destruct (strtol long_bits optarg) as [[cells tail] errno].
  destruct (negb (errno =? 0) || negb (String.eqb tail "") || (cells <=? 0));
    reflexivity.
Qed.

(** An option either is one of the four that the loop handles, or makes
    [setup_info] return 0. *)
Lemma option_effect_cases long_bits info c optarg :
  (c = "S" \/ c = "c" \/ c = "o" \/ c = "s")%char
  \/ option_effect long_bits info c optarg = None.
Proof.
  destruct c as [[] [] [] [] [] [] [] []]; cbn [option_effect]; auto 10.
Qed.

(** An option that is accepted leaves the input file alone, and a cell
    count that was at least 1 is so again when every [long] fits an
    [unsigned int]. *)
Lemma option_effect_cells long_bits info c optarg info' :
  option_effect long_bits info c optarg = Some info' ->
  in_filename info' = in_filename info /\
  (LONG_MAX long_bits <= UINT_MAX ->
   1 <= cells_size info <= UINT_MAX -> 1 <= cells_size info' <= UINT_MAX).
Proof.
  destruct (option_effect_cases long_bits info c optarg) as [[->|[->|[->| ->]]]|H];
    [| | | |congruence]; cbn [option_effect].
  - intros [= <-].
    match goal with |- context [if ?b then _ else _] => destruct b end; auto.
  - intros [= <-].
    match goal with |- context [if ?b then _ else _] => destruct b end; auto.
  - intros [= <-]. auto.
  - destruct (strtol long_bits optarg) as [[cells tail] errno] eqn:Es.
    destruct (negb (errno =? 0) || negb (String.eqb tail "") || (cells <=? 0)) eqn:E;
      [discriminate|].
    intros [= <-]. apply orb_false_elim in E as [_ E]. apply Z.leb_gt in E.
    split; [reflexivity|]. intros Hfit _.
    cbn [set_cells_size cells_size].
    assert (cells <= LONG_MAX long_bits) as Hle.
    { pose proof (strtol_le_MAX long_bits optarg) as Hr. rewrite Es in Hr.
      cbn [fst] in Hr. auto. }
    unfold UINT_MAX in *. rewrite wrap_small by lia. lia.
Qed.

Lemma setup_options_head_bad long_bits info arg rest :
  bad_size long_bits arg ->
  setup_options long_bits info (("s"%char, arg) :: rest) = (false, info).
Proof.
  unfold bad_size. cbn [setup_options].
  destruct (strtol long_bits arg) as [[cells tail] errno]. intros Hbad.
  assert (negb (errno =? 0) || negb (String.eqb tail "") || (cells <=? 0) = true) as ->;
    [|reflexivity].
  destruct Hbad as [H|[H|H]].
  - apply Z.eqb_neq in H. rewrite H. reflexivity.
  - apply String.eqb_neq in H. rewrite H. cbn [negb]. apply orb_true_iff. left.
    apply orb_true_r.
  - apply Z.leb_le in H. rewrite H. apply orb_true_r.
Qed.

Lemma setup_options_bad long_bits arg opts : forall info,
  In ("s"%char, arg) opts -> bad_size long_bits arg ->
  fst (setup_options long_bits info opts) = false.
Proof.
  induction opts as [|[c optarg] rest IH]; intros info Hin Hbad; [destruct Hin|].
  destruct Hin as [Heq|Hin].
  - injection Heq as -> ->. now rewrite setup_options_head_bad.
  - rewrite setup_options_step.
    destruct (option_effect long_bits info c optarg); [now apply IH|reflexivity].
Qed.

Lemma setup_options_cells long_bits opts : forall info,
  in_filename (snd (setup_options long_bits info opts)) = in_filename info /\
  (LONG_MAX long_bits <= UINT_MAX ->
   1 <= cells_size info <= UINT_MAX ->
   1 <= cells_size (snd (setup_options long_bits info opts)) <= UINT_MAX).
Proof.
  induction opts as [|[c optarg] rest IH]; intros info; [cbn; auto|].
  rewrite setup_options_step.
  destruct (option_effect long_bits info c optarg) as [info'|] eqn:E; [|cbn [snd]; auto].
  destruct (option_effect_cells _ _ _ _ _ E) as [Hin Hc].
  destruct (IH info') as [H1 H2]. rewrite H1, Hin. auto.
Qed.

(** The part of the size check that holds whatever the width of [long]: a
    [-s] argument that is not positive, or that is not a number to its end,
    or that [long] cannot represent, makes [setup_info] return 0 wherever
    it stands among the options, and [main] then stops with the diagnostic
    for invalid arguments before [compile] is called.  When [setup_info]
    returns 1, [main] calls [compile] with the input file set; and if
    every [long] fits an [unsigned int], as with 32 bits each, the cell
    count handed over is at least 1. *)
Theorem bad_size_rejected (long_bits : Z) (e : env) (opts : list (ascii * string))
    (operands : list string) :
  (forall arg, In ("s"%char, arg) opts -> bad_size long_bits arg ->
     fst (setup_info long_bits main_info opts operands) = 0 /\
     main long_bits e opts operands = Fatal invalid_diag) /\
  (fst (setup_info long_bits main_info opts operands) = 0 /\
   main long_bits e opts operands = Fatal invalid_diag
   \/
   exists info src_filename,
     setup_info long_bits main_info opts operands = (1, info) /\
     in_filename info = Some src_filename /\
     (LONG_MAX long_bits <= UINT_MAX -> 1 <= cells_size info <= UINT_MAX) /\
     main long_bits e opts operands =
       (asm_filename ←
          match target info, out_filename info with
          | COMPILE, Some out => Ok out
          | _, _ => replace_extension e src_filename "s"
          end;
        compile e info asm_filename src_filename)).
Proof.
  assert (fst (setup_info long_bits main_info opts operands) = 0 ->
          main long_bits e opts operands = Fatal invalid_diag) as Hmain.
  { unfold main. destruct (setup_info long_bits main_info opts operands) as [ok info].
    cbn [fst]. intros ->. reflexivity. }
  split.
  - intros arg Hin Hbad.
    assert (fst (setup_info long_bits main_info opts operands) = 0) as H0.
    { unfold setup_info.
      pose proof (setup_options_bad long_bits arg opts main_info Hin Hbad) as H.
      destruct (setup_options long_bits main_info opts) as [[] info']; [discriminate H|].
      reflexivity. }
    auto.
  - assert (1 <= cells_size main_info <= UINT_MAX) as Hc0
      by (unfold main_info, UINT_MAX; cbn [cells_size];
          change (wrap 4096) with 4096; lia).
    destruct (setup_options_cells long_bits opts main_info) as [Hin Hc].
    unfold main, setup_info in *.
    destruct (setup_options long_bits main_info opts) as [[] info']; cbn [fst snd] in *.
    + destruct operands as [|f operands]; [left; split; reflexivity|].
      right. exists (set_in_filename info' f), f.
      split; [reflexivity|]. split; [reflexivity|]. split; [|reflexivity].
      intros Hfit. exact (Hc Hfit Hc0).
    + left. split; reflexivity.
Qed.

Lemma bad_size_rejected_witness :
  fst (setup_info 64 main_info [("S"%char, ""); ("s"%char, "12k")] ["prog.bf"]) = 0 /\
  main 64 (demo_env "+") [("S"%char, ""); ("s"%char, "12k")] ["prog.bf"]
  = Fatal invalid_diag.
Proof.
  apply (proj1 (bad_size_rejected 64 (demo_env "+")
                  [("S"%char, ""); ("s"%char, "12k")] ["prog.bf"]) "12k").
  - right. left. reflexivity.
  - vm_compute. right. left. discriminate.
Defined.

(** C6.  The cell count can be 0.  Where [long] has 64 bits, [strtol]
    reads [4294967296] to its end without a range error and the value is
    positive, so the test of [setup_info] passes; the assignment to the
    [unsigned int] field then keeps the low 32 bits, which are 0.
    [setup_info] returns 1 with a cell count of 0, and [main] has the
    source translated with [.lcomm cells, 0].  Where [long] has 32 bits the
    same argument is out of range and is rejected. *)
Theorem cells_size_zero_accepted :
  setup_info 64 main_info [("s"%char, "4294967296")] ["prog.bf"]
  = (1, {| in_filename := Some "prog.bf"; out_filename := None;
           target := LINK; cells_size := 0 |}) /\
  (exists out,
     main 64 (demo_env "+") [("s"%char, "4294967296")] ["prog.bf"] = Ok out /\
     out !! 2%nat = Some (TAB +:+ ".lcomm cells, 0" +:+ NL)) /\
  main 32 (demo_env "+") [("s"%char, "4294967296")] ["prog.bf"] = Fatal invalid_diag.
Proof.
  split; [vm_compute; reflexivity|]. split; [|vm_compute; reflexivity].
  assert (exists o, main 64 (demo_env "+") [("s"%char, "4294967296")] ["prog.bf"] = Ok o)
    as [o H] by (vm_compute; eexists; reflexivity).
  exists o. split; [exact H|].
  revert H. vm_compute. intros [= <-]. reflexivity.
Qed.


(** * Further properties of the translator *)

(** ** Comments *)

Lemma scan_filter_recognized e src : forall st,
  scan e (List.filter recognized src) st = scan e src st.
Proof.
  induction src as [|c src IH]; intros st; [reflexivity|].
  cbn [List.filter]. destruct (recognized c) eqn:Hc.
  - rewrite !scan_cons. destruct (step e c st) as [st1| |]; cbn; auto.
  - rewrite scan_cons, (step_other e c st Hc). cbn. apply IH.
Qed.

(** Bytes that are no symbols can stand anywhere in the source: the result
    of the compilation, text or failure, is that of the source with all
    such bytes removed. *)
Theorem comments_ignored (e : env) (info : info_t)
    (asm_filename src_filename stripped_filename : string) (src : list ascii) :
  fs_read e src_filename = Some src ->
  fs_read e stripped_filename = Some (List.filter recognized src) ->
  compile e info asm_filename src_filename
  = compile e info asm_filename stripped_filename.
Proof.
  intros H1 H2. unfold compile. rewrite H1, H2.
  destruct (negb (fs_write e asm_filename)); [reflexivity|].
  destruct (malloc e (wrap (STACK_SIZE * sizeof_size_t))) as [blk|]; [|reflexivity].
  now rewrite scan_filter_recognized.
Qed.

Lemma comments_ignored_witness :
  compile (two_files_env "clear: [-] then read ,  " "[-],") demo_info "prog.s" "prog.bf"
  = compile (two_files_env "clear: [-] then read ,  " "[-],") demo_info "prog.s"
      "stripped.bf".
Proof.
  apply (comments_ignored (two_files_env "clear: [-] then read ,  " "[-],") demo_info
           "prog.s" "prog.bf" "stripped.bf"
           (list_ascii_of_string "clear: [-] then read ,  ")).
  - reflexivity.
  - vm_compute. reflexivity.
Defined.

(** ** Source without loops *)

Lemma fprintf_fprintf st l1 l2 : fprintf (fprintf st l1) l2 = fprintf st (l1 ++ l2).
Proof. unfold fprintf; cbn. now rewrite app_assoc. Qed.

Lemma step_template e c st :
  is_open c = false -> is_close c = false -> step e c st = Ok (fprintf st (template c)).
Proof.
  intros Ho Hc. destruct (step_cases c) as [H|H].
  - destruct H as [->|[->|[->|[->|[->|[->|[->| ->]]]]]]];
      try discriminate; reflexivity.
  - rewrite (step_other e c st H).
    assert (template c = []) as ->.
    { revert H. destruct c as [[] [] [] [] [] [] [] []]; intros H;
        vm_compute in H; try discriminate H; reflexivity. }
    now rewrite fprintf_nil.
Qed.

Lemma scan_templates e src : forall st,
  Forall (fun c => is_open c = false /\ is_close c = false) src ->
  scan e src st = Ok (fprintf st (flat_map template src)).
Proof.
  induction src as [|c src IH]; intros st H.
  - cbn. now rewrite fprintf_nil.
  - apply Forall_cons in H as [[Ho Hc] H].
    rewrite scan_cons, (step_template e c st Ho Hc). cbn [mbind outcome_bind].
    rewrite (IH _ H), fprintf_fprintf. reflexivity.
Qed.

(** The translation of a source without brackets is the prologue, the
    templates of its symbols one after the other in source order, and the
    epilogue; it needs nothing but the two files and the first allocation,
    so it cannot fail once these are there. *)
Theorem loop_free_output (e : env) (info : info_t)
    (asm_filename src_filename : string) (src : list ascii) :
  fs_read e src_filename = Some src ->
  fs_write e asm_filename = true ->
  heap_grants e 4096 = true ->
  Forall (fun c => is_open c = false /\ is_close c = false) src ->
  compile e info asm_filename src_filename
  = Ok (prologue (cells_size info) ++ flat_map template src ++ epilogue).
Proof.
  intros Hr Hw Hg Hsrc. unfold compile, malloc. rewrite Hr, Hw. cbn [negb].
  change (wrap (STACK_SIZE * sizeof_size_t)) with 4096. rewrite Hg.
  rewrite (scan_templates e src _ Hsrc). cbn [mbind outcome_bind fprintf as_ start].
  now rewrite <- app_assoc.
Qed.

Lemma loop_free_output_witness :
  compile (demo_env "+++.") demo_info "prog.s" "prog.bf"
  = Ok (prologue 4096 ++ flat_map template (list_ascii_of_string "+++.") ++ epilogue).
Proof.
  apply (loop_free_output (demo_env "+++.") demo_info "prog.s" "prog.bf"
           (list_ascii_of_string "+++.")).
  - reflexivity.
  - reflexivity.
  - reflexivity.
  - repeat constructor.
Defined.

(** ** The size of the output *)

Lemma length_template c :
  is_open c = false -> is_close c = false -> length (template c) = lines_per c.
Proof.
  destruct c as [[] [] [] [] [] [] [] []]; intros Ho Hc;
    vm_compute in Ho; vm_compute in Hc; try discriminate; reflexivity.
Qed.

Lemma step_lines e c st st' :
  Inv st -> step e c st = Ok st' ->
  length (as_ st') = (length (as_ st) + lines_per c)%nat.
Proof.
  intros HI H. destruct (is_open c) eqn:Ho; [|destruct (is_close c) eqn:Hc].
  - apply is_open_true in Ho. subst c.
    destruct (step_open_Inv _ _ _ HI H) as (_ & _ & _ & _ & _ & ->).
    now rewrite length_app.
  - apply is_close_true in Hc. subst c.
    destruct (step_close_Inv _ _ _ HI H) as (_ & _ & _ & _ & _ & _ & l & _ & ->).
    now rewrite length_app.
  - rewrite (step_template e c st Ho Hc) in H. injection H as <-.
    cbn [fprintf as_]. now rewrite length_app, length_template.
Qed.

Lemma scan_lines e src : forall st st',
  Inv st -> scan e src st = Ok st' ->
  length (as_ st') = (length (as_ st) + list_sum (map lines_per src))%nat.
Proof.
  induction src as [|c src IH]; intros st st' HI H.
  - injection H as <-. cbn. lia.
  - rewrite scan_cons in H.
    destruct (step e c st) as [st1| |] eqn:H1; try discriminate. cbn in H.
    rewrite (IH _ _ (proj1 (step_Inv _ _ _ _ HI H1)) H), (step_lines _ _ _ _ HI H1).
    change (list_sum (map lines_per (c :: src)))
      with (lines_per c + list_sum (map lines_per src))%nat. lia.
Qed.

(** Every translation that completes writes ten lines of prologue and
    epilogue and, for each byte of source, one line for each of [> < + -],
    five for each of [, .], three for each bracket and none for any other
    byte. *)
Theorem output_line_count (e : env) (info : info_t)
    (asm_filename src_filename : string) (src : list ascii) (out : list string) :
  fs_read e src_filename = Some src ->
  compile e info asm_filename src_filename = Ok out ->
  length out = (10 + list_sum (map lines_per src))%nat.
Proof.
  intros Hr H.
  destruct (compile_Ok _ _ _ _ _ H) as (src' & blk & st & Hr' & _ & Hm & Hs & ->).
  assert (src' = src) as -> by congruence.
  destruct (start_Inv e (cells_size info) blk Hm) as [HI _].
  rewrite length_app, (scan_lines _ _ _ _ HI Hs). cbn [start as_ prologue epilogue length].
  lia.
Qed.

Lemma output_line_count_witness :
  exists out,
    compile (demo_env "+[-[>,.<]]") demo_info "prog.s" "prog.bf" = Ok out /\
    length out = (10 + list_sum (map lines_per (list_ascii_of_string "+[-[>,.<]]")))%nat.
Proof.
  assert (exists o, compile (demo_env "+[-[>,.<]]") demo_info "prog.s" "prog.bf" = Ok o)
    as [o H] by (vm_compute; eexists; reflexivity).
  exists o. split; [exact H|].
  apply (output_line_count (demo_env "+[-[>,.<]]") demo_info "prog.s" "prog.bf"
           (list_ascii_of_string "+[-[>,.<]]") o); [reflexivity|exact H].
Defined.

(** ** Nesting that fits the initial loop stack *)

(** While the nesting stays within the capacity, the scan goes through
    without a resize. *)
Lemma scan_within e src : forall st,
  Inv st -> Z.of_nat (length (stack st)) = stack_size st ->
  nesting_within src (top st) (stack_size st) ->
  exists st', scan e src st = Ok st' /\ stack_size st' = stack_size st /\
              length (stack st') = length (stack st).
Proof.
  induction src as [|c src IH]; intros st HI Hlen Hn; [exists st; auto|].
  destruct (nesting_within_tail _ _ _ _ Hn) as [Hd Hn'].
  assert (exists st1, step e c st = Ok st1 /\ stack_size st1 = stack_size st /\
                      length (stack st1) = length (stack st)) as (st1 & H1 & Hz & Hl).
  { destruct (is_open c) eqn:Ho; [|destruct (is_close c) eqn:Hc].
    - apply is_open_true in Ho. subst c. cbn in Hd.
      exists (pushed st (stack st) (stack_size st)).
      rewrite step_open_eq. unfold room.
      destruct (Z.eqb_spec (top st) (stack_size st)) as [E|_]; [lia|].
      destruct (Z.ltb_spec (top st) (Z.of_nat (length (stack st)))); [|lia].
      split; [reflexivity|]. unfold pushed; cbn [stack_size stack].
      now rewrite length_insert.
    - apply is_close_true in Hc. subst c. cbn in Hd.
      destruct HI as (Ht & Hb & Hlp).
      destruct (lookup_lt_is_Some_2 (stack st) (Z.to_nat (top st - 1))) as [l Hlk];
        [lia|].
      exists (popped st l). rewrite step_close_eq, wrap_small, Hlk by lia. auto.
    - exists (fprintf st (template c)). rewrite (step_template e c st Ho Hc). auto. }
  destruct (step_Inv _ _ _ _ HI H1) as (HI1 & Ht1 & _).
  destruct (IH st1 HI1) as (st' & Hs & Hz' & Hl').
  - rewrite Hl, Hz. exact Hlen.
  - rewrite Ht1, Hz. exact Hn'.
  - exists st'. rewrite scan_cons, H1. cbn [mbind outcome_bind].
    split; [exact Hs|]. split; [congruence|congruence].
Qed.

(** A source whose brackets never close more than is open and never nest
    deeper than 1024 is translated whatever the allocator does after the
    first allocation: the loop stack is never resized, and the compilation
    completes. *)
Theorem modest_nesting_compiles (e : env) (info : info_t)
    (asm_filename src_filename : string) (src : list ascii) :
  fs_read e src_filename = Some src ->
  fs_write e asm_filename = true ->
  heap_grants e 4096 = true ->
  nesting_within src 0 STACK_SIZE ->
  exists blk st,
    scan e src (start (cells_size info) blk) = Ok st /\
    stack_size st = STACK_SIZE /\
    compile e info asm_filename src_filename = Ok (as_ st ++ epilogue).
Proof.
  intros Hr Hw Hg Hn.
  assert (malloc e (wrap (STACK_SIZE * sizeof_size_t))
          = Some (fresh e 0 1024)) as Hm.
  { unfold malloc. change (wrap (STACK_SIZE * sizeof_size_t)) with 4096.
    rewrite Hg. reflexivity. }
  destruct (start_Inv e (cells_size info) _ Hm) as [HI Hlen].
  destruct (scan_within e src (start (cells_size info) (fresh e 0 1024)) HI Hlen Hn)
    as (st & Hs & Hz & _).
  exists (fresh e 0 1024), st. split; [exact Hs|]. split; [exact Hz|].
  unfold compile. rewrite Hr, Hw, Hm. cbn [negb]. rewrite Hs. reflexivity.
Qed.

Lemma modest_nesting_compiles_witness :
  exists blk st,
    scan (other_env "+[-[>,.<]]") nested_src (start 4096 blk) = Ok st /\
    stack_size st = STACK_SIZE /\
    compile (other_env "+[-[>,.<]]") demo_info "copy.s" "copy.bf"
    = Ok (as_ st ++ epilogue).
Proof.
  apply (modest_nesting_compiles (other_env "+[-[>,.<]]") demo_info "copy.s" "copy.bf"
           nested_src).
  - reflexivity.
  - reflexivity.
  - reflexivity.
  - apply nesting_ok_sound; [reflexivity|unfold STACK_SIZE; lia].
Defined.

(** ** The options *)

(** What an option that is accepted does to the target stage. *)
Lemma option_effect_target long_bits info c optarg info' :
  option_effect long_bits info c optarg = Some info' ->
  stage_rank (target info') =
  Z.min (stage_rank (target info))
        (if Ascii.eqb c "S" then 0 else if Ascii.eqb c "c" then 1 else 2).
Proof.
  destruct (option_effect_cases long_bits info c optarg) as [[->|[->|[->| ->]]]|H];
    [| | | |congruence]; cbn [option_effect Ascii.eqb Bool.eqb].
  - intros [= <-]. destruct (target info) eqn:T; cbn; rewrite ?T; reflexivity.
  - intros [= <-]. destruct (target info) eqn:T; cbn; rewrite ?T; reflexivity.
  - intros [= <-]. destruct (target info) eqn:T; cbn; rewrite ?T; reflexivity.
  - destruct (strtol long_bits optarg) as [[cells tail] errno].
    destruct (negb (errno =? 0) || negb (String.eqb tail "") || (cells <=? 0));
      [discriminate|].
    intros [= <-]. destruct (target info) eqn:T; cbn; rewrite ?T; reflexivity.
Qed.

Lemma setup_options_target long_bits opts : forall info info',
  setup_options long_bits info opts = (true, info') ->
  stage_rank (target info') =
  Z.min (stage_rank (target info))
        (if has_option "S" opts then 0 else if has_option "c" opts then 1 else 2).
Proof.
  induction opts as [|[c optarg] rest IH]; intros info info' H.
  - injection H as <-. cbn. destruct (target info); reflexivity.
  - rewrite setup_options_step in H.
    destruct (option_effect long_bits info c optarg) as [i|] eqn:E; [|discriminate].
    rewrite (IH _ _ H), (option_effect_target _ _ _ _ _ E).
    unfold has_option. cbn [existsb fst].
    destruct (Ascii.eqb c "S"), (Ascii.eqb c "c"),
      (existsb (fun o => Ascii.eqb (fst o) "S") rest),
      (existsb (fun o => Ascii.eqb (fst o) "c") rest); cbn [orb];
      destruct (target info); reflexivity.
Qed.

(** When [setup_info] accepts the command line, the stage at which [main]
    stops depends only on which of [-S] and [-c] occur, not on their order
    or number: [-S] means compile only, otherwise [-c] means assemble,
    otherwise the program is linked.  The width of [long] plays no part. *)
Theorem target_by_options (long_bits : Z) (opts : list (ascii * string))
    (operands : list string) (info : info_t) :
  setup_info long_bits main_info opts operands = (1, info) ->
  target info = if has_option "S" opts then COMPILE
                else if has_option "c" opts then ASSEMBLE
                else LINK.
Proof.
  unfold setup_info.
  destruct (setup_options long_bits main_info opts) as [[] info'] eqn:E;
    [|discriminate].
  destruct operands as [|f operands]; [discriminate|]. intros [= <-].
  pose proof (setup_options_target _ _ _ _ E) as H. cbn [set_in_filename target].
  cbn [main_info target stage_rank] in H.
  destruct (has_option "S" opts), (has_option "c" opts), (target info');
    cbn in H; try discriminate H; reflexivity.
Qed.

Lemma target_by_options_witness :
  target (snd (setup_info 32 main_info [("c"%char, ""); ("S"%char, ""); ("c"%char, "")]
                 ["prog.bf"]))
  = COMPILE.
Proof.
  apply (target_by_options 32 [("c"%char, ""); ("S"%char, ""); ("c"%char, "")]
           ["prog.bf"]).
  reflexivity.
Defined.

Lemma option_effect_fields long_bits info c optarg info' :
  option_effect long_bits info c optarg = Some info' ->
  out_filename info' = (if Ascii.eqb c "o" then Some optarg else out_filename info) /\
  cells_size info' = (if Ascii.eqb c "s" then wrap (fst (fst (strtol long_bits optarg)))
                      else cells_size info) /\
  in_filename info' = in_filename info.
Proof.
  destruct (option_effect_cases long_bits info c optarg) as [[->|[->|[->| ->]]]|H];
    [| | | |congruence]; cbn [option_effect Ascii.eqb Bool.eqb].
  - intros [= <-].
    match goal with |- context [if ?b then _ else _] => destruct b end; auto.
  - intros [= <-].
    match goal with |- context [if ?b then _ else _] => destruct b end; auto.
  - intros [= <-]. auto.
  - destruct (strtol long_bits optarg) as [[cells tail] errno]. cbn [fst] in *.
    destruct (negb (errno =? 0) || negb (String.eqb tail "") || (cells <=? 0));
      [discriminate|].
    intros [= <-]. auto.
Qed.

Lemma optargs_cons c c' optarg rest :
  optargs c ((c', optarg) :: rest) =
  if Ascii.eqb c' c then optarg :: optargs c rest else optargs c rest.
Proof.
  unfold optargs. cbn [List.filter fst]. destruct (Ascii.eqb c' c); reflexivity.
Qed.

(** When [setup_info] accepts the command line, the last [-o] gives the
    output file name (there is none without a [-o]), and the last [-s]
    gives the cell count: the number that [strtol] reads from its argument,
    converted from [long] to [unsigned int], that is reduced modulo [2^32]
    (4096 without a [-s]).  Where [long] has 32 bits the conversion changes
    nothing; where it is wider, a size of [2^32] or more is accepted and
    loses its high bits.  The input file is the first operand. *)
Theorem last_option_wins (long_bits : Z) (opts : list (ascii * string))
    (operands : list string) (info : info_t) :
  setup_info long_bits main_info opts operands = (1, info) ->
  out_filename info = last (optargs "o" opts) /\
  cells_size info = match last (optargs "s" opts) with
                    | Some arg => wrap (fst (fst (strtol long_bits arg)))
                    | None => 4096
                    end /\
  (LONG_MAX long_bits <= UINT_MAX ->
   cells_size info = match last (optargs "s" opts) with
                     | Some arg => fst (fst (strtol long_bits arg))
                     | None => 4096
                     end) /\
  in_filename info = head operands.
Proof.
  assert (forall opts i i',
            setup_options long_bits i opts = (true, i') ->
            out_filename i' = match last (optargs "o" opts) with
                              | Some f => Some f
                              | None => out_filename i
                              end /\
            cells_size i' = match last (optargs "s" opts) with
                            | Some arg => wrap (fst (fst (strtol long_bits arg)))
                            | None => cells_size i
                            end /\
            forall arg, last (optargs "s" opts) = Some arg ->
                        0 < fst (fst (strtol long_bits arg))) as Hloop.
  { clear. induction opts as [|[c optarg] rest IH]; intros i i' H.
    - injection H as <-. cbn. split; [reflexivity|]. split; [reflexivity|].
      intros arg [=].
    - rewrite setup_options_step in H.
      destruct (option_effect long_bits i c optarg) as [j|] eqn:E; [|discriminate].
      destruct (IH _ _ H) as (Ho & Hc & Hp).
      destruct (option_effect_fields _ _ _ _ _ E) as (Eo & Ec & _).
      rewrite !optargs_cons. split; [|split].
      + rewrite Ho, Eo. destruct (Ascii.eqb c "o"); [|reflexivity].
        rewrite last_cons. destruct (last (optargs "o" rest)); reflexivity.
      + rewrite Hc, Ec. destruct (Ascii.eqb c "s"); [|reflexivity].
        rewrite last_cons. destruct (last (optargs "s" rest)); reflexivity.
      + destruct (Ascii.eqb_spec c "s") as [->|Hne]; [|exact Hp].
        rewrite last_cons. destruct (last (optargs "s" rest)) as [arg'|] eqn:El.
        * intros arg [= <-]. now apply Hp.
        * intros arg [= <-]. revert E. cbn [option_effect].
          destruct (strtol long_bits optarg) as [[cells tail] errno]. cbn [fst].
          destruct (negb (errno =? 0) || negb (String.eqb tail "") || (cells <=? 0)) eqn:B;
            [discriminate|].
          intros _. apply orb_false_elim in B as [_ B]. now apply Z.leb_gt in B. }
  unfold setup_info.
  destruct (setup_options long_bits main_info opts) as [[] info'] eqn:E;
    [|discriminate].
  destruct operands as [|f operands]; [discriminate|]. intros [= <-].
  destruct (Hloop _ _ _ E) as (Ho & Hc & Hp).
  cbn [set_in_filename out_filename cells_size in_filename head].
  rewrite Ho, Hc. cbn [main_info out_filename cells_size].
  split; [destruct (last (optargs "o" opts)); reflexivity|].
  split; [destruct (last (optargs "s" opts)); reflexivity|].
  split; [|reflexivity].
  intros Hfit. destruct (last (optargs "s" opts)) as [arg|]; [|reflexivity].
  pose proof (Hp arg eq_refl) as H0.
  pose proof (strtol_le_MAX long_bits arg H0) as H1.
  unfold UINT_MAX in Hfit. apply wrap_small. lia.
Qed.

Lemma last_option_wins_witness :
  cells_size (snd (setup_info 64 main_info
                     [("o"%char, "a"); ("s"%char, "16"); ("o"%char, "b");
                      ("s"%char, "4294967297")]
                     ["prog.bf"; "more.bf"]))
  = 1.
Proof.
  destruct (last_option_wins 64
              [("o"%char, "a"); ("s"%char, "16"); ("o"%char, "b"); ("s"%char, "4294967297")]
              ["prog.bf"; "more.bf"]
              (snd (setup_info 64 main_info
                      [("o"%char, "a"); ("s"%char, "16"); ("o"%char, "b");
                       ("s"%char, "4294967297")]
                      ["prog.bf"; "more.bf"])))
    as (_ & H & _).
  - vm_compute. reflexivity.
  - rewrite H. vm_compute. reflexivity.
Defined.

(** ** Diagnostics *)

Lemma step_Fatal e c st d :
  step e c st = Fatal d -> is_oom d /\ c = "["%char /\ top st = stack_size st.
Proof.
  intros H. destruct (is_open c) eqn:Ho; [|destruct (is_close c) eqn:Hc].
  - apply is_open_true in Ho. subst c. rewrite step_open_eq in H.
    unfold room in H.
    destruct (Z.eqb_spec (top st) (stack_size st)) as [Heq|Hne].
    + unfold resize in H. destruct (grow (stack_size st)) as [size'|]; [|discriminate].
      destruct (realloc e (stack st) (wrap (sizeof_size_t * size'))) as [blk|].
      * destruct (top st <? Z.of_nat (length blk)); discriminate.
      * injection H as <-. split; [exists size'; reflexivity|auto].
    + destruct (top st <? Z.of_nat (length (stack st))); discriminate.
  - apply is_close_true in Hc. subst c. rewrite step_close_eq in H.
    destruct (stack st !! Z.to_nat (wrap (top st - 1))); discriminate.
  - rewrite (step_template e c st Ho Hc) in H. discriminate.
Qed.

Lemma scan_Fatal e src : forall st d, scan e src st = Fatal d -> is_oom d.
Proof.
  induction src as [|c src IH]; intros st d H; [discriminate|].
  rewrite scan_cons in H. destruct (step e c st) as [st1| |] eqn:H1.
  - exact (IH _ _ H).
  - injection H as <-. apply (step_Fatal _ _ _ _ H1).
  - discriminate.
Qed.

Lemma compile_Fatal (e : env) (info : info_t) (asm_filename src_filename d : string) :
  compile e info asm_filename src_filename = Fatal d ->
  d = read_diag src_filename \/ d = write_diag asm_filename \/
  d = malloc_diag \/ is_oom d.
Proof.
  unfold compile, malloc. change (wrap (STACK_SIZE * sizeof_size_t)) with 4096.
  destruct (fs_read e src_filename) as [src|]; [|intros [= <-]; auto].
  destruct (fs_write e asm_filename); cbn [negb]; [|intros [= <-]; auto].
  destruct (heap_grants e 4096); [|intros [= <-]; auto].
  intros H.
  destruct (scan e src (start (cells_size info) (fresh e 0 (Z.to_nat (4096 / sizeof_size_t)))))
    as [st| |] eqn:Hs; try discriminate.
  injection H as <-. right. right. right. exact (scan_Fatal _ _ _ _ Hs).
Qed.

(** [compile] opens the source first, then the assembly file, then
    allocates the loop stack, and the first of these that fails decides
    the diagnostic; after that the only diagnostic left is the one of a
    refused growth of the loop stack.  There is no other way for [compile]
    to end in a diagnostic. *)
Theorem compile_diagnostics (e : env) (info : info_t) (asm_filename src_filename : string) :
  (fs_read e src_filename = None ->
     compile e info asm_filename src_filename = Fatal (read_diag src_filename)) /\
  (fs_read e src_filename <> None -> fs_write e asm_filename = false ->
     compile e info asm_filename src_filename = Fatal (write_diag asm_filename)) /\
  (fs_read e src_filename <> None -> fs_write e asm_filename = true ->
     heap_grants e 4096 = false ->
     compile e info asm_filename src_filename = Fatal malloc_diag) /\
  (forall d, compile e info asm_filename src_filename = Fatal d ->
     d = read_diag src_filename \/ d = write_diag asm_filename \/
     d = malloc_diag \/ is_oom d).
Proof.
  split; [|split; [|split]]; [| | |intros d; apply compile_Fatal];
    unfold compile, malloc; change (wrap (STACK_SIZE * sizeof_size_t)) with 4096.
  - now intros ->.
  - intros Hr ->. now destruct (fs_read e src_filename).
  - intros Hr -> ->. now destruct (fs_read e src_filename).
Qed.

Lemma compile_diagnostics_witness :
  compile (demo_env "+") demo_info "prog.s" "absent.bf" = Fatal (read_diag "absent.bf").
Proof.
  apply (compile_diagnostics (demo_env "+") demo_info "prog.s" "absent.bf").
  reflexivity.
Defined.

Lemma is_oom_not_missing d : is_oom d -> d <> missing_diag.
Proof. intros [size ->]. discriminate. Qed.

(** Without an operand [main] reports invalid arguments, whatever the
    options; and no command line makes it report a missing input file: the
    test for it comes after [setup_info], which has then already failed. *)
Theorem missing_input_never_reported (long_bits : Z) (e : env)
    (opts : list (ascii * string)) :
  main long_bits e opts [] = Fatal invalid_diag /\
  forall operands d, main long_bits e opts operands = Fatal d -> d <> missing_diag.
Proof.
  split.
  - unfold main, setup_info.
    destruct (setup_options long_bits main_info opts) as [[] info']; reflexivity.
  - intros operands d. unfold main, setup_info.
    destruct (setup_options long_bits main_info opts) as [[] info'].
    2:{ intros [= <-]. discriminate. }
    destruct operands as [|f operands]; [intros [= <-]; discriminate|].
    cbn [Z.eqb in_filename set_in_filename].
    set (info := set_in_filename info' f).
    destruct (match target info, out_filename info with
              | COMPILE, Some out => Ok out
              | _, _ => replace_extension e f "s"
              end) as [asm| |] eqn:Ha; cbn [mbind outcome_bind].
    + intros H.
      destruct (compile_Fatal e info asm f d H)
        as [->|[->|[->|Ho]]]; try discriminate.
      now apply is_oom_not_missing.
    + intros [= <-].
      destruct (target info), (out_filename info); try discriminate Ha;
        unfold replace_extension in Ha;
        match type of Ha with
        | (if ?b then _ else _) = _ => destruct b; [discriminate Ha|]
        end; injection Ha as <-; discriminate.
    + discriminate.
Qed.

Lemma missing_input_never_reported_witness :
  read_diag "absent.bf" <> missing_diag.
Proof.
  apply (proj2 (missing_input_never_reported 32 (demo_env "+") []) ["absent.bf"]).
  reflexivity.
Defined.

(** ** File names *)


Lemma append_String a r s : String a r +:+ s = String a (r +:+ s).
Proof. reflexivity. Qed.

Lemma append_Empty s : "" +:+ s = s.
Proof. reflexivity. Qed.






(** ** Reading a number *)

Lemma suffix_of_refl s : suffix_of s s.
Proof. exists "". reflexivity. Qed.

Lemma suffix_of_trans a b c : suffix_of a b -> suffix_of b c -> suffix_of a c.
Proof.
  intros [p ->] [q ->]. exists (q +:+ p).
  induction q as [|x q IH]; [reflexivity|].
  rewrite !append_String. now rewrite IH.
Qed.

Lemma suffix_of_tail a r : suffix_of r (String a r).
Proof. exists (String a ""). reflexivity. Qed.

Lemma skip_space_suffix s : suffix_of (skip_space s) s.
Proof.
  induction s as [|a r IH]; [apply suffix_of_refl|].
  cbn [skip_space]. destruct (isspace a); [|apply suffix_of_refl].
  eapply suffix_of_trans; [exact IH|apply suffix_of_tail].
Qed.

Lemma strtol_sign_suffix s : suffix_of (snd (strtol_sign s)) s.
Proof.
  destruct s as [|a r]; [apply suffix_of_refl|].
  destruct a as [[] [] [] [] [] [] [] []]; cbn [strtol_sign snd];
    first [apply suffix_of_refl | apply suffix_of_tail].
Qed.

Lemma strtol_base_suffix s : suffix_of (snd (strtol_base s)) s.
Proof.
  unfold strtol_base.
  destruct s as [|a [|x [|h r]]]; try apply suffix_of_refl;
    destruct a as [[] [] [] [] [] [] [] []]; cbn [snd]; try apply suffix_of_refl.
  destruct ((Ascii.eqb x "x" || Ascii.eqb x "X")
            && match digit_val h with Some d => d <? 16 | None => false end);
    cbn [snd]; [|apply suffix_of_refl].
  exists (String "0" (String x "")). reflexivity.
Qed.

Lemma digits_suffix base s : forall acc seen,
  suffix_of (snd (fst (digits base s acc seen))) s.
Proof.
  induction s as [|a r IH]; intros acc seen; [apply suffix_of_refl|].
  cbn [digits]. destruct (digit_val a) as [d|]; [|apply suffix_of_refl].
  destruct (d <? base); [|apply suffix_of_refl].
  eapply suffix_of_trans; [apply IH|apply suffix_of_tail].
Qed.

(** What [strtol] returns: a value in the range of [long]; as tail a rest
    of the argument, the whole argument if there was no digit; and in
    [errno] either 0 or [ERANGE], the latter only with the value at one of
    the two bounds. *)
Theorem strtol_result (long_bits : Z) (nptr : string) (v : Z) (tail : string) (errno : Z) :
  1 <= long_bits ->
  strtol long_bits nptr = (v, tail, errno) ->
  LONG_MIN long_bits <= v <= LONG_MAX long_bits /\
  suffix_of tail nptr /\
  (errno = 0 \/ errno = ERANGE /\ (v = LONG_MAX long_bits \/ v = LONG_MIN long_bits)).
Proof.
  intros Hb H. pose proof (strtol_range long_bits nptr Hb) as Hr.
  rewrite H in Hr. cbn [fst] in Hr.
  split; [exact Hr|]. revert H. unfold strtol.
  pose proof (strtol_sign_suffix (skip_space nptr)) as H1.
  destruct (strtol_sign (skip_space nptr)) as [neg s1]. cbn [snd] in H1.
  pose proof (strtol_base_suffix s1) as H2.
  destruct (strtol_base s1) as [base s2]. cbn [snd] in H2.
  pose proof (digits_suffix base s2 0 false) as H3.
  destruct (digits base s2 0 false) as [[w rest] seen]. cbn [fst snd] in H3.
  destruct seen; cbn [negb].
  - unfold strtol_clamp.
    destruct (LONG_MAX long_bits <? (if neg then - w else w));
      [|destruct ((if neg then - w else w) <? LONG_MIN long_bits)];
      intros [= <- <- <-]; (split; [|auto]);
      eauto using suffix_of_trans, skip_space_suffix.
  - intros [= <- <- <-]. split; [apply suffix_of_refl|auto].
Qed.

Lemma strtol_result_witness :
  LONG_MIN 32 <= 2147483647 <= LONG_MAX 32 /\
  suffix_of "kB" " 99999999999kB" /\
  (ERANGE = 0 \/
   ERANGE = ERANGE /\ (2147483647 = LONG_MAX 32 \/ 2147483647 = LONG_MIN 32)).
Proof.
  apply (strtol_result 32 " 99999999999kB" 2147483647 "kB" ERANGE); [lia|reflexivity].
Defined.

(** ** Printing a number and reading it back *)

Lemma digits_string_of_uint d : forall acc seen,
  digits 10 (NilEmpty.string_of_uint d) acc seen =
  (uint_value d acc, "",
   match d with Decimal.Nil => seen | _ => true end).
Proof.
  induction d as [|d IH|d IH|d IH|d IH|d IH|d IH|d IH|d IH|d IH|d IH];
    intros acc seen; [reflexivity|..];
    cbn [NilEmpty.string_of_uint digits uint_value];
    (match goal with
     | |- context [digit_val ?c] =>
         let v := eval vm_compute in (digit_val c) in
         change (digit_val c) with v
     end);
    cbv iota; (match goal with
     | |- context [?a <? 10] => change (a <? 10) with true
     end); cbv iota; rewrite IH; destruct d; reflexivity.
Qed.

Lemma of_uint_acc_value d : forall acc,
  Zpos (Pos.of_uint_acc d acc) = uint_value d (Zpos acc).
Proof.
  induction d as [|d IH|d IH|d IH|d IH|d IH|d IH|d IH|d IH|d IH|d IH];
    intros acc; [reflexivity|..];
    cbn [Pos.of_uint_acc uint_value]; rewrite IH; f_equal; lia.
Qed.

Lemma of_uint_value d : Z.of_N (Pos.of_uint d) = uint_value d 0.
Proof.
  induction d as [|d IH|d IH|d IH|d IH|d IH|d IH|d IH|d IH|d IH|d IH];
    [reflexivity|exact IH|..];
    cbn [Pos.of_uint uint_value Z.of_N]; rewrite of_uint_acc_value; reflexivity.
Qed.

Lemma to_uint_value p : uint_value (Pos.to_uint p) 0 = Zpos p.
Proof.
  rewrite <- of_uint_value, DecimalPos.Unsigned.of_to. reflexivity.
Qed.

(** The decimal numeral of a positive number does not begin with 0. *)
Lemma to_uint_head p : forall d, Pos.to_uint p <> Decimal.D0 d.
Proof.
  intros d H.
  assert (Decimal.unorm (Pos.to_uint p) = Pos.to_uint p) as Hn.
  { rewrite <- DecimalPos.Unsigned.to_of, DecimalPos.Unsigned.of_to. reflexivity. }
  rewrite H in Hn. unfold Decimal.unorm in Hn.
  destruct (Decimal.nzhead (Decimal.D0 d)) eqn:E;
    try (apply (DecimalFacts.nzhead_nonzero _ _ E));
    try (rewrite <- E in Hn; apply (DecimalFacts.nzhead_nonzero _ _ Hn)).
  injection Hn as <-. apply (DecimalPos.Unsigned.to_uint_nonzero p H).
Qed.

Lemma strtol_decimal (long_bits : Z) (d : Decimal.uint) :
  d <> Decimal.Nil -> (forall d', d <> Decimal.D0 d') ->
  0 <= uint_value d 0 <= LONG_MAX long_bits ->
  strtol long_bits (NilEmpty.string_of_uint d) = (uint_value d 0, "", 0).
Proof.
  intros Hnil Hzero Hrange.
  assert (skip_space (NilEmpty.string_of_uint d) = NilEmpty.string_of_uint d /\
          strtol_sign (NilEmpty.string_of_uint d) = (false, NilEmpty.string_of_uint d) /\
          strtol_base (NilEmpty.string_of_uint d) = (10, NilEmpty.string_of_uint d))
    as (H1 & H2 & H3).
  { destruct d; try congruence; try (exfalso; eapply Hzero; reflexivity);
      repeat split; reflexivity. }
  unfold strtol. rewrite H1, H2, H3, digits_string_of_uint.
  assert (match d with Decimal.Nil => false | _ => true end = true) as ->
    by (destruct d; congruence).
  cbn [negb]. unfold strtol_clamp.
  destruct (Z.ltb_spec (LONG_MAX long_bits) (uint_value d 0)); [lia|].
  destruct (Z.ltb_spec (uint_value d 0) (LONG_MIN long_bits)); [|reflexivity].
  unfold LONG_MIN in *. pose proof (Z.pow_nonneg 2 (long_bits - 1)). lia.
Qed.

(** A cell count that is printed with [%u] and read back with [strtol]
    is the same number, whatever the width of [long]: for every [n] from 0
    to [LONG_MAX] the decimal text is read to its end without error, and
    [-s] with that text sets the cell count to [n] if [n] is at least 1
    and an [unsigned int] holds it. *)
Theorem strtol_fmt_u (long_bits n : Z) (info : info_t) :
  0 <= n <= LONG_MAX long_bits ->
  strtol long_bits (fmt_u n) = (n, "", 0) /\
  (1 <= n <= UINT_MAX ->
   option_effect long_bits info "s" (fmt_u n) = Some (set_cells_size info n)).
Proof.
  intros Hn.
  assert (strtol long_bits (fmt_u n) = (n, "", 0)) as Hs.
  { destruct n as [|p|p]; [| |lia].
    - change (strtol long_bits (fmt_u 0)) with (strtol_clamp long_bits 0 "").
      unfold strtol_clamp.
      destruct (Z.ltb_spec (LONG_MAX long_bits) 0); [lia|].
      destruct (Z.ltb_spec 0 (LONG_MIN long_bits)); [|reflexivity].
      unfold LONG_MIN in *. pose proof (Z.pow_nonneg 2 (long_bits - 1)). lia.
    - unfold fmt_u. cbn [Z.to_N N.to_uint].
      pose proof (DecimalPos.Unsigned.to_uint_nonnil p) as Hnil.
      pose proof (to_uint_head p) as Hhead.
      pose proof (to_uint_value p) as Hv.
      assert (NilZero.string_of_uint (Pos.to_uint p)
              = NilEmpty.string_of_uint (Pos.to_uint p)) as ->
        by (destruct (Pos.to_uint p); [congruence|reflexivity..]).
      rewrite strtol_decimal; rewrite ?Hv; auto; lia. }
  split; [exact Hs|]. intros H1.
  cbn [option_effect]. rewrite Hs.
  assert ((n <=? 0) = false) as -> by (apply Z.leb_gt; lia).
  cbn [Z.eqb negb String.eqb orb]. unfold UINT_MAX in H1.
  rewrite wrap_small by lia. reflexivity.
Qed.

Lemma strtol_fmt_u_witness :
  strtol 32 (fmt_u 30000) = (30000, "", 0) /\
  (1 <= 30000 <= UINT_MAX ->
   option_effect 32 demo_info "s" (fmt_u 30000) = Some (set_cells_size demo_info 30000)).
Proof.
  apply (strtol_fmt_u 32 30000 demo_info). unfold LONG_MAX. lia.
Defined.

(** ** Loops in the text *)

Lemma plain_part_cons c s :
  plain_part (c :: s) = if is_open c || is_close c then plain_part s else c :: plain_part s.
Proof. unfold plain_part. cbn [List.filter]. destruct (is_open c || is_close c); reflexivity. Qed.

Lemma plain_part_app p s : plain_part (p ++ s) = plain_part p ++ plain_part s.
Proof. unfold plain_part. apply List.filter_app. Qed.

Lemma loops_in_cons c s : loops_in (c :: s) = ((if is_open c then 1 else 0) + loops_in s)%nat.
Proof. unfold loops_in. cbn [List.filter]. destruct (is_open c); reflexivity. Qed.

Lemma loops_in_app p s : loops_in (p ++ s) = (loops_in p + loops_in s)%nat.
Proof. unfold loops_in. now rewrite List.filter_app, length_app. Qed.

Lemma opens_loops_in s : opens s = Z.of_nat (loops_in s).
Proof. reflexivity. Qed.

Lemma labels_after_S first n :
  labels_after first (S n) = wrap (first + 1) :: labels_after (wrap (first + 1)) n.
Proof.
  unfold labels_after. cbn [seq map]. f_equal.
  rewrite <- (seq_shift n 1), map_map. apply map_ext. intros i.
  unfold wrap. rewrite Zplus_mod_idemp_l. f_equal. lia.
Qed.

Lemma labels_after_app first n m :
  labels_after first (n + m) =
  labels_after first n ++ labels_after (wrap (first + Z.of_nat n)) m.
Proof.
  revert first. induction n as [|n IH]; intros first.
  - cbn [Nat.add labels_after seq map app]. unfold labels_after.
    apply map_ext. intros i. unfold wrap. rewrite Zplus_mod_idemp_l. f_equal. lia.
  - cbn [Nat.add]. rewrite !labels_after_S, IH. cbn [app]. do 3 f_equal.
    unfold wrap. rewrite Zplus_mod_idemp_l. f_equal. lia.
Qed.

(** The text of a balanced piece of source is, up to the order of the
    lines, the templates of its plain symbols together with the opening
    and closing lines of one label for each of its loops. *)
Lemma scan_balanced_text e b :
  balanced b -> forall st st',
  Inv st -> scan e b st = Ok st' ->
  exists body,
    as_ st' = as_ st ++ body /\
    body ≡ₚ flat_map template (plain_part b)
            ++ flat_map loop_lines (labels_after (loop st) (loops_in b)).
Proof.
  induction 1 as [|c s Ho Hc Hs IHs|b s Hb IHb Hs IHs]; intros st st' HI H.
  - injection H as <-. exists []. split; [now rewrite app_nil_r|reflexivity].
  - rewrite scan_cons, (step_template e c st Ho Hc) in H. cbn [mbind outcome_bind] in H.
    assert (Inv (fprintf st (template c))) as HI1 by exact HI.
    destruct (IHs _ _ HI1 H) as (body & Ha & Hp).
    exists (template c ++ body). split.
    + rewrite Ha. cbn [fprintf as_]. now rewrite app_assoc.
    + rewrite plain_part_cons, loops_in_cons, Ho, Hc. cbn [orb flat_map Nat.add].
      rewrite Hp. cbn [fprintf loop]. now rewrite app_assoc.
  - rewrite scan_cons in H.
    destruct (step e "[" st) as [st1| |] eqn:H1; try discriminate.
    cbn [mbind outcome_bind] in H.
    destruct (scan_prefix_Ok _ _ _ _ _ H) as (st2 & H2 & H3).
    rewrite scan_cons in H3.
    destruct (step e "]" st2) as [st3| |] eqn:H4; try discriminate.
    cbn [mbind outcome_bind] in H3.
    destruct (step_open_Inv _ _ _ HI H1) as (HI1 & _ & Hl1 & _ & _ & Ha1).
    destruct (scan_Inv _ _ _ _ HI1 H2) as (HI2 & _ & Hl2).
    destruct (scan_loop_match e b st st1 st2 Hb HI H1 H2) as [H4' _].
    rewrite H4' in H4. injection H4 as <-.
    assert (Inv (popped st2 (loop st1))) as HI3.
    { exact (proj1 (step_Inv _ _ _ _ HI2 H4')). }
    destruct (IHb _ _ HI1 H2) as (body_b & Hab & Hpb).
    destruct (IHs _ _ HI3 H3) as (body_s & Has & Hps).
    exists (open_lines (loop st1) ++ body_b ++ close_lines (loop st1) ++ body_s).
    split.
    + rewrite Has. cbn [popped as_]. rewrite Hab, Ha1.
      now rewrite <- !app_assoc.
    + rewrite plain_part_cons, plain_part_app, plain_part_cons.
      cbn [is_open is_close Ascii.eqb Bool.eqb orb].
      change (is_open "[" || is_close "[") with true.
      change (is_open "]" || is_close "]") with true. cbv iota.
      rewrite loops_in_cons, loops_in_app, loops_in_cons.
      change (is_open "[") with true. change (is_open "]") with false. cbv iota.
      cbn [Nat.add]. rewrite labels_after_S, labels_after_app.
      rewrite !flat_map_app. cbn [flat_map]. rewrite !flat_map_app. rewrite Hpb, Hps.
      cbn [popped loop]. rewrite Hl2, Hl1, <- opens_loops_in.
      unfold loop_lines.
      set (o := open_lines (wrap (loop st + 1))).
      set (c := close_lines (wrap (loop st + 1))).
      set (tb := flat_map template (plain_part b)).
      set (ts := flat_map template (plain_part s)).
      set (lb := flat_map (fun l => open_lines l ++ close_lines l)
                   (labels_after (wrap (loop st + 1)) (loops_in b))).
      set (ls := flat_map (fun l => open_lines l ++ close_lines l)
                   (labels_after (wrap (wrap (loop st + 1) + opens b)) (loops_in s))).
      rewrite <- !app_assoc.
      solve_Permutation.
Qed.

Lemma length_append s t : String.length (s +:+ t) = (String.length s + String.length t)%nat.
Proof.
  induction s as [|a s IH]; [reflexivity|].
  rewrite append_String. cbn [String.length]. now rewrite IH.
Qed.

Lemma append_inv_tail t : forall s1 s2, s1 +:+ t = s2 +:+ t -> s1 = s2.
Proof.
  induction s1 as [|a s1 IH]; intros s2 H.
  - destruct s2 as [|b s2]; [reflexivity|].
    apply (f_equal String.length) in H. rewrite append_Empty, length_append in H.
    cbn [String.length] in H. lia.
  - destruct s2 as [|b s2].
    + apply (f_equal String.length) in H. rewrite append_Empty, length_append in H.
      cbn [String.length] in H. lia.
    + rewrite !append_String in H. injection H as -> H. f_equal. now apply IH.
Qed.

(** Numbers that differ are printed differently. *)
Lemma fmt_u_inj a b : 0 <= a -> 0 <= b -> fmt_u a = fmt_u b -> a = b.
Proof.
  intros Ha Hb H. unfold fmt_u in H.
  assert (forall n, N.to_uint n <> Decimal.Nil) as Hnil.
  { intros [|p]; [discriminate|apply DecimalPos.Unsigned.to_uint_nonnil]. }
  pose proof (NilZero.usu _ (Hnil (Z.to_N a))) as Ua.
  pose proof (NilZero.usu _ (Hnil (Z.to_N b))) as Ub.
  rewrite H, Ub in Ua. injection Ua as Ua.
  apply DecimalN.Unsigned.to_uint_inj in Ua. apply Z2N.inj; auto.
Qed.

Lemma begin_marker_inj a b : 0 <= a -> 0 <= b -> begin_marker a = begin_marker b -> a = b.
Proof.
  intros Ha Hb H. unfold begin_marker in H.
  apply (String.app_inj ".LB") in H. apply append_inv_tail in H.
  now apply fmt_u_inj.
Qed.

Lemma end_marker_inj a b : 0 <= a -> 0 <= b -> end_marker a = end_marker b -> a = b.
Proof.
  intros Ha Hb H. unfold end_marker in H.
  apply (String.app_inj ".LE") in H. apply append_inv_tail in H.
  now apply fmt_u_inj.
Qed.

Lemma markers_NoDup (f : Z -> string) (k : nat) :
  (forall a b, 0 <= a -> 0 <= b -> f a = f b -> a = b) ->
  List.NoDup (map f (map Z.of_nat (seq 1 k))).
Proof.
  intros Hinj. rewrite map_map. apply NoDup_ListNoDup.
  apply (NoDup_fmap_2_strong (fun i => f (Z.of_nat i))); [|apply NoDup_seq].
  intros x y _ _ H. apply Hinj in H; lia.
Qed.

Lemma labels_after_0 (k : nat) :
  Z.of_nat k < 2 ^ 32 -> labels_after 0 k = map Z.of_nat (seq 1 k).
Proof.
  intros Hk. unfold labels_after. apply map_ext_in. intros i Hi.
  apply in_seq in Hi. apply wrap_small. lia.
Qed.

(** In the text of a well-formed source with fewer than [2^32] loops,
    between prologue and epilogue there are, up to their order, exactly
    the templates of the plain symbols and, for each label from 1 to the
    number of loops, the three lines of its ['['] and the three lines of
    its [']']: every loop has its own label, every jump has its target,
    and no label is defined twice. *)
Theorem loops_in_text (e : env) (info : info_t) (asm_filename src_filename : string)
    (src : list ascii) (out : list string) :
  fs_read e src_filename = Some src ->
  balanced src ->
  opens src < 2 ^ 32 ->
  compile e info asm_filename src_filename = Ok out ->
  exists body,
    out = prologue (cells_size info) ++ body ++ epilogue /\
    body ≡ₚ flat_map template (plain_part src)
            ++ flat_map loop_lines (map Z.of_nat (seq 1 (loops_in src))) /\
    List.NoDup (map begin_marker (map Z.of_nat (seq 1 (loops_in src)))) /\
    List.NoDup (map end_marker (map Z.of_nat (seq 1 (loops_in src)))).
Proof.
  intros Hr Hbal Hlt H.
  destruct (compile_Ok _ _ _ _ _ H) as (src' & blk & st & Hr' & _ & Hm & Hs & ->).
  assert (src' = src) as -> by congruence.
  destruct (start_Inv e (cells_size info) blk Hm) as [HI _].
  destruct (scan_balanced_text e src Hbal _ _ HI Hs) as (body & Ha & Hp).
  exists body. split; [|split; [|split]].
  - rewrite Ha. cbn [start as_]. now rewrite <- app_assoc.
  - rewrite Hp. cbn [start loop]. rewrite labels_after_0; [reflexivity|].
    rewrite <- opens_loops_in. exact Hlt.
  - apply markers_NoDup, begin_marker_inj.
  - apply markers_NoDup, end_marker_inj.
Qed.

Lemma loops_in_text_witness :
  exists out body,
    compile (demo_env "+[-[>,.<]]") demo_info "prog.s" "prog.bf" = Ok out /\
    out = prologue 4096 ++ body ++ epilogue /\
    body ≡ₚ flat_map template (plain_part nested_src)
            ++ flat_map loop_lines (map Z.of_nat (seq 1 (loops_in nested_src))).
Proof.
  assert (exists o, compile (demo_env "+[-[>,.<]]") demo_info "prog.s" "prog.bf" = Ok o)
    as [o H] by (vm_compute; eexists; reflexivity).
  destruct (loops_in_text (demo_env "+[-[>,.<]]") demo_info "prog.s" "prog.bf"
              nested_src o eq_refl nested_balanced) as (body & H1 & H2 & _).
  - vm_compute. reflexivity.
  - exact H.
  - exists o, body. auto.
Defined.
